(** * Maze generator (maze.py): a shallow embedding and its properties

    The Python module defines a class [Maze] holding a sparse grid of
    [Maze.Cell] objects and a depth-first carving procedure.  Python
    integers are unbounded, so coordinates are [Z].  The dictionary
    [__cellrows] maps a row index to a dictionary from column index to
    the cell object; it also carries the two bounding-box lists under
    the keys ['min'] and ['max'], which are kept here as four optional
    integers ([None] in Python is [None] here). *)

From Stdlib Require Import Ascii.
From stdpp Require Import gmap strings list fin_maps relations.

Open Scope Z_scope.

(** ** Exceptions and results *)

(** The exceptions the interpreter raises on the paths of this module.
    [NoSuchObject] is not a Python exception: it is the result of
    following a reference to a stored cell that the store does not hold,
    which no run of the program produces (cells are never removed). *)
Inductive exn := AttributeError | TypeError | RecursionError | NoSuchObject.

Inductive result (A : Type) :=
| Ok (a : A)
| Raise (e : exn).
Arguments Ok {A} a.
Arguments Raise {A} e.

Global Instance exn_eq_dec : EqDecision exn.
Proof. solve_decision. Defined.

(** ** Cells *)

(** The attributes of a [Maze.Cell] object.  The back reference
    [__maze] is the one maze the cell belongs to and is passed
    explicitly to the operations that read it. *)
Record Cell := mkCell {
  x : Z;
  y : Z;
  empty : bool;
  wall_below : bool;
  wall_right : bool
}.

Global Instance Cell_eq_dec : EqDecision Cell.
Proof. solve_decision. Defined.

(** A reference to a cell object.  A real cell is constructed only by
    [createCell], which stores it under [__cellrows[y][x]] in the same
    call and never replaces or removes it, so the object is identified
    by its key: [Stored x y].  A cell built with [empty=True] is never
    stored; it is a value of its own: [Transient c]. *)
Inductive CellRef :=
| Stored (cx cy : Z)
| Transient (c : Cell).

(** ** The maze *)

Record Maze := mkMaze {
  max_width : Z;
  max_height : Z;
  min_x : option Z;   (* __cellrows['min'][0] *)
  min_y : option Z;   (* __cellrows['min'][1] *)
  max_x : option Z;   (* __cellrows['max'][0] *)
  max_y : option Z;   (* __cellrows['max'][1] *)
  cellrows : gmap Z (gmap Z Cell)  (* the integer keys of __cellrows *)
}.

(** [Maze.__init__] *)
Definition Maze_init (w h : Z) : Maze :=
  mkMaze w h None None None None ∅.

(** [self.__cellrows[y][x]] when both keys are present. *)
Definition cell_at (m : Maze) (px py : Z) : option Cell :=
  match cellrows m !! py with
  | None => None
  | Some row => row !! px
  end.

(** [Maze.cellExists] *)
Definition cellExists (m : Maze) (px py : Z) : bool :=
  match cellrows m !! py with
  | None => false
  | Some row =>
      match row !! px with
      | None => false
      | Some _ => true
      end
  end.

(** [Maze.Cell.__init__] *)
Definition Cell_init (m : Maze) (px py : Z) (e : bool) : Cell :=
  if e then mkCell px py e (cellExists m px (py + 1)) (cellExists m (px + 1) py)
  else mkCell px py e true true.

(** The object behind a reference. *)
Definition deref (m : Maze) (r : CellRef) : result Cell :=
  match r with
  | Transient c => Ok c
  | Stored px py =>
      match cell_at m px py with
      | Some c => Ok c
      | None => Raise NoSuchObject
      end
  end.

(** The attributes [x] and [y] of the referenced object; they are set
    by the constructor and never assigned again. *)
Definition ref_x (r : CellRef) : Z :=
  match r with Stored px _ => px | Transient c => x c end.
Definition ref_y (r : CellRef) : Z :=
  match r with Stored _ py => py | Transient c => y c end.

(** Assignment to an attribute of the stored object at [(px, py)]: the
    row dictionary keeps its keys, the object its identity. *)
Definition put_cell (m : Maze) (px py : Z) (c : Cell) : Maze :=
  match cellrows m !! py with
  | None => m
  | Some row =>
      mkMaze (max_width m) (max_height m) (min_x m) (min_y m) (max_x m) (max_y m)
             (<[py := <[px := c]> row]> (cellrows m))
  end.

(** [Maze.Cell.__str__] *)
Definition Cell_str (c : Cell) : string :=
  let ret := ""%string in
  let ret := if wall_below c then (ret +:+ "_")%string else (ret +:+ " ")%string in
  if wall_right c then (ret +:+ "|")%string
  else if wall_below c then (ret +:+ "_")%string else (ret +:+ " ")%string.

(** The assignments [self.__wall_right = False] and
    [self.__wall_below = False]. *)
Definition clear_right (c : Cell) : Cell :=
  mkCell (x c) (y c) (empty c) (wall_below c) false.
Definition clear_below (c : Cell) : Cell :=
  mkCell (x c) (y c) (empty c) false (wall_right c).

(** [Maze.Cell.hasWallRight] and [Maze.Cell.hasWallBelow] *)
Definition hasWallRight (m : Maze) (r : CellRef) : result bool :=
  match deref m r with
  | Ok c => Ok (wall_right c)
  | Raise e => Raise e
  end.

Definition hasWallBelow (m : Maze) (r : CellRef) : result bool :=
  match deref m r with
  | Ok c => Ok (wall_below c)
  | Raise e => Raise e
  end.

(** [Maze.Cell.breakWallRight]: the stored flag is cleared only on a
    cell that is not empty and still has the wall.  On a transient
    object the assignment would change a value that nobody else holds. *)
Definition breakWallRight (m : Maze) (r : CellRef) : result bool * Maze :=
  match deref m r with
  | Raise e => (Raise e, m)
  | Ok c =>
      if negb (empty c) && wall_right c then
        match r with
        | Stored px py =>
            (Ok true, put_cell m px py (clear_right c))
        | Transient _ => (Ok true, m)
        end
      else (Ok false, m)
  end.

(** [Maze.Cell.breakWallBelow] *)
Definition breakWallBelow (m : Maze) (r : CellRef) : result bool * Maze :=
  match deref m r with
  | Raise e => (Raise e, m)
  | Ok c =>
      if negb (empty c) && wall_below c then
        match r with
        | Stored px py =>
            (Ok true, put_cell m px py (clear_below c))
        | Transient _ => (Ok true, m)
        end
      else (Ok false, m)
  end.

(** [Maze.getCell] *)
Definition getCell (m : Maze) (px py : Z) : CellRef :=
  if bool_decide (px < 0) || bool_decide (px >= max_width m) then
    Transient (Cell_init m px py true)
  else if bool_decide (py < 0) || bool_decide (py >= max_height m) then
    Transient (Cell_init m px py true)
  else
    match cellrows m !! py with
    | None => Transient (Cell_init m px py true)
    | Some row =>
        match row !! px with
        | None => Transient (Cell_init m px py true)
        | Some _ => Stored px py
        end
    end.

(** Attribute lookup on a [Maze] object, for the methods that take a
    position and return a cell without changing the maze.  Python
    resolves attribute names exactly, case included; a name that is
    not defined raises [AttributeError]. *)
Definition Maze_lookup_method (name : string) : option (Maze → Z → Z → CellRef) :=
  if decide (name = "getCell"%string) then Some getCell else None.

(** [Maze.Cell.hasWallLeft]: [self.__maze.getcell(self.x-1, self.y).hasWallRight()] *)
Definition hasWallLeft (m : Maze) (r : CellRef) : result bool :=
  match Maze_lookup_method "getcell" with
  | None => Raise AttributeError
  | Some getcell => hasWallRight m (getcell m (ref_x r - 1) (ref_y r))
  end.

(** [Maze.Cell.hasWallAbove]: [self.__maze.getcell(self.x, self.y-1).hasWallBelow()] *)
Definition hasWallAbove (m : Maze) (r : CellRef) : result bool :=
  match Maze_lookup_method "getcell" with
  | None => Raise AttributeError
  | Some getcell => hasWallBelow m (getcell m (ref_x r) (ref_y r - 1))
  end.

(** [Maze.Cell.breakWallLeft]: [self.__maze.getcell(self.x-1, self.y).breakWallRight()] *)
Definition breakWallLeft (m : Maze) (r : CellRef) : result bool * Maze :=
  match Maze_lookup_method "getcell" with
  | None => (Raise AttributeError, m)
  | Some getcell => breakWallRight m (getcell m (ref_x r - 1) (ref_y r))
  end.

(** [Maze.Cell.breakWallAbove]: the source calls [breakWallAbove] again
    on the cell it looked up, [self.__maze.getcell(self.x, self.y-1).breakWallAbove()];
    [depth] is the number of nested calls the interpreter still allows. *)
Fixpoint breakWallAbove (depth : nat) (m : Maze) (r : CellRef) : result bool * Maze :=
  match depth with
  | O => (Raise RecursionError, m)
  | S d =>
      match Maze_lookup_method "getcell" with
      | None => (Raise AttributeError, m)
      | Some getcell => breakWallAbove d m (getcell m (ref_x r) (ref_y r - 1))
      end
  end.

(** [Maze.createCell], on the paths on which it returns.  The one call
    it makes, of the constructor [Maze.Cell], comes after the writes
    to the bounding box; [createCell_raises] below is the path on
    which that call raises. *)
Definition createCell (m : Maze) (px py : Z) : option CellRef * Maze :=
  if bool_decide (px < 0) || bool_decide (px >= max_width m) then (None, m)
  else if bool_decide (py < 0) || bool_decide (py >= max_height m) then (None, m)
  else
    let miny := match min_y m with
                | None => Some py
                | Some v => if bool_decide (v > py) then Some py else Some v
                end in
    let maxy := match max_y m with
                | None => Some py
                | Some v => if bool_decide (v < py) then Some py else Some v
                end in
    let minx := match min_x m with
                | None => Some px
                | Some v => if bool_decide (v > px) then Some px else Some v
                end in
    let maxx := match max_x m with
                | None => Some px
                | Some v => if bool_decide (v < px) then Some px else Some v
                end in
    let m1 := mkMaze (max_width m) (max_height m) minx miny maxx maxy (cellrows m) in
    match cellrows m1 !! py with
    | None =>
        let ret := Cell_init m1 px py false in
        (Some (Stored px py),
         mkMaze (max_width m) (max_height m) minx miny maxx maxy
                (<[py := {[px := ret]}]> (cellrows m1)))
    | Some row =>
        match row !! px with
        | None =>
            let ret := Cell_init m1 px py false in
            (Some (Stored px py),
             mkMaze (max_width m) (max_height m) minx miny maxx maxy
                    (<[py := <[px := ret]> row]> (cellrows m1)))
        | Some _ => (Some (Stored px py), m1)
        end
    end.

(** [Maze.createCell], on the path on which the call
    [Maze.Cell(self, x, y)] (l.129 or l.134) raises [RecursionError]
    because the interpreter's stack is full: the maze it leaves, with
    the bounding box written (l.120-127) and no cell stored.  [None]
    when the call does not reach the constructor: outside the bounds
    it returns before, on a stored cell it returns [row[x]]. *)
Definition createCell_raises (m : Maze) (px py : Z) : option Maze :=
  if bool_decide (px < 0) || bool_decide (px >= max_width m) then None
  else if bool_decide (py < 0) || bool_decide (py >= max_height m) then None
  else
    let miny := match min_y m with
                | None => Some py
                | Some v => if bool_decide (v > py) then Some py else Some v
                end in
    let maxy := match max_y m with
                | None => Some py
                | Some v => if bool_decide (v < py) then Some py else Some v
                end in
    let minx := match min_x m with
                | None => Some px
                | Some v => if bool_decide (v > px) then Some px else Some v
                end in
    let maxx := match max_x m with
                | None => Some px
                | Some v => if bool_decide (v < px) then Some px else Some v
                end in
    let m1 := mkMaze (max_width m) (max_height m) minx miny maxx maxy (cellrows m) in
    match cellrows m1 !! py with
    | None => Some m1
    | Some row =>
        match row !! px with
        | None => Some m1
        | Some _ => None
        end
    end.

(** ** Random order of the four directions *)

(** The four entries of the list built in [_recursivePopulate], in the
    order of the source: the neighbour to the left, above, to the right
    and below. *)
Inductive Dir := DLeft | DAbove | DRight | DBelow.

Global Instance Dir_eq_dec : EqDecision Dir.
Proof. solve_decision. Defined.

Definition directions : list Dir := [DLeft; DAbove; DRight; DBelow].

(** [random.sample(l, 4)] on a list of four entries returns them in a
    random order.  The generator is a sequence of draws and a position
    in it; a draw selects one of the 24 orders. *)
Record Rng := mkRng { draw : nat → nat; pos : nat }.

Definition orders : list (list Dir) := permutations directions.

Definition order_of (k : nat) : list Dir :=
  nth (k mod 24)%nat orders directions.

Definition sample4 (g : Rng) : list Dir * Rng :=
  (order_of (draw g (pos g)), mkRng (draw g) (S (pos g))).

(** ** Carving *)

(** The coordinate paired with each direction. *)
Definition target (r : CellRef) (d : Dir) : Z * Z :=
  match d with
  | DLeft => (ref_x r - 1, ref_y r)
  | DAbove => (ref_x r, ref_y r - 1)
  | DRight => (ref_x r + 1, ref_y r)
  | DBelow => (ref_x r, ref_y r + 1)
  end.

(** The lambda paired with each direction, applied to the new cell
    [nc]; the last two ignore their argument and use [cell]. *)
Definition connect (d : Dir) (cell nc : CellRef) (m : Maze) : result bool * Maze :=
  match d with
  | DLeft => breakWallRight m nc
  | DAbove => breakWallBelow m nc
  | DRight => breakWallRight m cell
  | DBelow => breakWallBelow m cell
  end.

Definition State : Type := Maze * Rng.

(** The [for] loop of [_recursivePopulate] over the sampled list;
    [rec] is the recursive call. *)
Definition for_dirs (rec : option CellRef → State → result unit * State)
    (cell : CellRef) : list Dir → State → result unit * State :=
  fix go (dirs : list Dir) (st : State) : result unit * State :=
    match dirs with
    | [] => (Ok tt, st)
    | d :: ds =>
        let '(tx, ty) := target cell d in
        if cellExists (fst st) tx ty then go ds st
        else
          let '(nc, m1) := createCell (fst st) tx ty in
          match nc with
          | None => go ds (m1, snd st)
          | Some n =>
              let '(b, m2) := connect d cell n m1 in
              match b with
              | Raise e => (Raise e, (m2, snd st))
              | Ok _ =>
                  let '(r, st3) := rec (Some n) (m2, snd st) in
                  match r with
                  | Raise e => (Raise e, st3)
                  | Ok _ => go ds st3
                  end
              end
          end
    end.

(** [Maze._recursivePopulate]; [depth] is the number of nested calls
    the interpreter still allows.  Reading [cell.x] on [None] raises
    [AttributeError]. *)
Fixpoint _recursivePopulate (depth : nat) (cell : option CellRef) (st : State)
    : result unit * State :=
  match depth with
  | O => (Raise RecursionError, st)
  | S d =>
      match cell with
      | None => (Raise AttributeError, st)
      | Some c =>
          let '(dirs, g) := sample4 (snd st) in
          for_dirs (_recursivePopulate d) c dirs (fst st, g)
      end
  end.

(** [Maze.populateFrom]; [depth] is the number of nested calls of
    [_recursivePopulate] the interpreter allows. *)
Definition populateFrom (depth : nat) (px py : Z) (st : State) : result bool * State :=
  if cellExists (fst st) px py then (Ok false, st)
  else
    let '(cell, m1) := createCell (fst st) px py in
    let '(r, st') := _recursivePopulate depth cell (m1, snd st) in
    match r with
    | Raise e => (Raise e, st')
    | Ok _ => (Ok true, st')
    end.

(** ** Rendering *)

Definition newline : string := String (Ascii.ascii_of_nat 10) EmptyString.

(** [range(a, b)] *)
Definition py_range (a b : Z) : list Z := seqZ a (b - a).

(** [str(cell)] on a reference. *)
Definition ref_str (m : Maze) (r : CellRef) : result string :=
  match deref m r with
  | Ok c => Ok (Cell_str c)
  | Raise e => Raise e
  end.

(** The inner loop of [Maze.__str__] over the columns of one row. *)
Fixpoint str_cols (m : Maze) (row : Z) (cols : list Z) (ret : string) : result string :=
  match cols with
  | [] => Ok ret
  | col :: cs =>
      match ref_str m (getCell m col row) with
      | Raise e => Raise e
      | Ok s => str_cols m row cs (ret +:+ s)%string
      end
  end.

(** The outer loop of [Maze.__str__]; the bounds of the inner range
    are read again for each row, and [None - 1] raises [TypeError]. *)
Fixpoint str_rows (m : Maze) (rows : list Z) (ret : string) : result string :=
  match rows with
  | [] => Ok ret
  | row :: rs =>
      match min_x m with
      | None => Raise TypeError
      | Some c =>
          match max_x m with
          | None => Raise TypeError
          | Some d =>
              match str_cols m row (py_range (c - 1) (d + 1)) ret with
              | Raise e => Raise e
              | Ok ret' => str_rows m rs (ret' +:+ newline)%string
              end
          end
      end
  end.

(** [Maze.__str__] *)
Definition Maze_str (m : Maze) : result string :=
  match min_y m with
  | None => Raise TypeError
  | Some a =>
      match max_y m with
      | None => Raise TypeError
      | Some b => str_rows m (py_range (a - 1) (b + 1)) ""%string
      end
  end.

(** * Vocabulary of the properties *)

(** ** Bounds and well-formed mazes *)

(** The position lies in [[0, max_width) x [0, max_height)]. *)
Definition in_bounds (m : Maze) (px py : Z) : Prop :=
  0 <= px < max_width m ∧ 0 <= py < max_height m.

Global Instance in_bounds_dec m px py : Decision (in_bounds m px py).
Proof. unfold in_bounds. apply _. Defined.

(** The bounding box after [createCell]. *)
Definition lower (v : option Z) (p : Z) : Z :=
  match v with None => p | Some a => Z.min a p end.

Definition upper (v : option Z) (p : Z) : Z :=
  match v with None => p | Some a => Z.max a p end.

(** The four entries of the bounding box are absent together, or set
    together to a box that is not inverted and lies inside the
    declared bounds. *)
Definition box_ok (m : Maze) : Prop :=
  (min_x m = None ∧ min_y m = None ∧ max_x m = None ∧ max_y m = None) ∨
  (∃ a b a' b', min_x m = Some a ∧ min_y m = Some b ∧
                max_x m = Some a' ∧ max_y m = Some b' ∧
                0 <= a ∧ a <= a' ∧ a' < max_width m ∧
                0 <= b ∧ b <= b' ∧ b' < max_height m).

(** What every maze built by the operations satisfies: a stored cell
    carries its key, is real, lies inside the declared bounds and the
    bounding box, and a cleared wall flag has a stored cell on its
    other side.  The bounding box need not be tight: [createCell]
    writes it before it constructs the cell. *)
Record wf (m : Maze) : Prop := mk_wf {
  wf_key : ∀ px py c, cell_at m px py = Some c →
    x c = px ∧ y c = py ∧ empty c = false;
  wf_in : ∀ px py c, cell_at m px py = Some c → in_bounds m px py;
  wf_box : ∀ px py c, cell_at m px py = Some c →
    ∃ a b a' b', min_x m = Some a ∧ min_y m = Some b ∧
                 max_x m = Some a' ∧ max_y m = Some b' ∧
                 a <= px <= a' ∧ b <= py <= b';
  wf_right : ∀ px py c, cell_at m px py = Some c → wall_right c = false →
    is_Some (cell_at m (px + 1) py);
  wf_below : ∀ px py c, cell_at m px py = Some c → wall_below c = false →
    is_Some (cell_at m px (py + 1));
  wf_frame : box_ok m
}.

(** ** Carving steps *)

(** What the body of the loop does when it enters a new cell: the
    target is not stored, [createCell] returns the new cell, and the
    lambda of the direction is applied. *)
Definition carve_step (m m2 : Maze) : Prop :=
  ∃ px py d nc m1 b,
    is_Some (cell_at m px py) ∧
    cellExists m (target (Stored px py) d).1 (target (Stored px py) d).2 = false ∧
    createCell m (target (Stored px py) d).1 (target (Stored px py) d).2 = (Some nc, m1) ∧
    connect d (Stored px py) nc m1 = (Ok b, m2).

(** The new cell and its parent after the step. *)
Definition new_cell (d : Dir) (tx ty : Z) : Cell :=
  match d with
  | DLeft => mkCell tx ty false true false
  | DAbove => mkCell tx ty false false true
  | _ => mkCell tx ty false true true
  end.

Definition parent_cell (d : Dir) (c : Cell) : Cell :=
  match d with
  | DRight => clear_right c
  | DBelow => clear_below c
  | _ => c
  end.

(** The effect of a step from the stored cell [c] at [(px, py)] in
    direction [d] on the free position [(tx, ty)]. *)
Definition carved (m m2 : Maze) (px py : Z) (c : Cell) (d : Dir) (tx ty : Z) : Prop :=
  cell_at m px py = Some c ∧
  target (Stored px py) d = (tx, ty) ∧
  cell_at m tx ty = None ∧
  in_bounds m tx ty ∧
  (d = DRight → wall_right c = true) ∧
  (d = DBelow → wall_below c = true) ∧
  max_width m2 = max_width m ∧ max_height m2 = max_height m ∧
  min_x m2 = Some (lower (min_x m) tx) ∧
  min_y m2 = Some (lower (min_y m) ty) ∧
  max_x m2 = Some (upper (max_x m) tx) ∧
  max_y m2 = Some (upper (max_y m) ty) ∧
  ∀ qx qy, cell_at m2 qx qy =
    if decide (qx = tx ∧ qy = ty) then Some (new_cell d tx ty)
    else if decide (qx = px ∧ qy = py) then Some (parent_cell d c)
    else cell_at m qx qy.

(** ** Free and closed positions *)

(** All positions inside the declared bounds. *)
Definition box (m : Maze) : list (Z * Z) :=
  px ← seqZ 0 (max_width m); py ← seqZ 0 (max_height m); [(px, py)].

(** The number of positions inside the bounds that hold no cell. *)
Definition free (m : Maze) : nat :=
  length (filter (λ p : Z * Z, cell_at m p.1 p.2 = None) (box m)).

(** A position is closed when each of its four neighbours inside the
    bounds is stored. *)
Definition closed (m : Maze) (px py : Z) : Prop :=
  ∀ d, in_bounds m (target (Stored px py) d).1 (target (Stored px py) d).2 →
       is_Some (cell_at m (target (Stored px py) d).1 (target (Stored px py) d).2).

(** Every cell stored in [m'] and not in [m] is closed in [m']. *)
Definition closed_new (m m' : Maze) : Prop :=
  ∀ qx qy, cell_at m qx qy = None → is_Some (cell_at m' qx qy) → closed m' qx qy.

(** What a call at nesting allowance [n] does on a stored cell. *)
Definition call_ok (n : nat)
    (rec : option CellRef → State → result unit * State) : Prop :=
  ∀ px py st, wf (fst st) → is_Some (cell_at (fst st) px py) →
    ∃ r st', rec (Some (Stored px py)) st = (r, st') ∧
      rtc carve_step (fst st) (fst st') ∧
      (r = Ok tt ∨ r = Raise RecursionError) ∧
      (r = Ok tt → closed_new (fst st) (fst st') ∧ closed (fst st') px py) ∧
      ((free (fst st) < n)%nat → r = Ok tt).

(** ** Graphs: connected and free of cycles *)

Section GraphDefinitions.
Context {A : Type}.
Implicit Types (V : A → Prop) (E : relation A).

(** Any two vertices are joined by a chain of edges. *)
Definition connected V E : Prop := ∀ p q, V p → V q → rtc E p q.

(** The position after [i] on a round trip over [n] positions. *)
Definition next_index (n i : nat) : nat := if decide (S i = n) then 0%nat else S i.

(** A cycle: at least three distinct vertices, each joined to the
    next one and the last one to the first. *)
Definition cycle E (l : list A) : Prop :=
  (3 <= length l)%nat ∧ NoDup l ∧
  ∀ i a b, l !! i = Some a → l !! next_index (length l) i = Some b → E a b.

(** No list of vertices is a cycle. *)
Definition acyclic E : Prop := ∀ l, ¬ cycle E l.

End GraphDefinitions.

(** ** The passage graph of a maze *)

(** The vertices are the stored cells; two neighbours are joined when
    the wall between them, kept by the left or upper one, is gone. *)
Definition populated (m : Maze) (p : Z * Z) : Prop := is_Some (cell_at m p.1 p.2).

Definition open_right (m : Maze) (px py : Z) : Prop :=
  hasWallRight m (Stored px py) = Ok false.

Definition open_below (m : Maze) (px py : Z) : Prop :=
  hasWallBelow m (Stored px py) = Ok false.

Definition passage (m : Maze) (p q : Z * Z) : Prop :=
  (open_right m p.1 p.2 ∧ q = (p.1 + 1, p.2)) ∨
  (open_below m p.1 p.2 ∧ q = (p.1, p.2 + 1)) ∨
  (open_right m q.1 q.2 ∧ p = (q.1 + 1, q.2)) ∨
  (open_below m q.1 q.2 ∧ p = (q.1, q.2 + 1)).

(** Closes a goal that is a nest of disjunctions and conjunctions of
    hypotheses and equations between positions. *)
Ltac pick :=
  solve [ assumption | reflexivity | lia | (f_equal; lia)
        | split; pick | left; pick | right; pick ].

(** ** Counting *)

(** All stored cell objects. *)
Definition cells (m : Maze) : list Cell :=
  map_to_list (cellrows m) ≫= λ yr, (map_to_list yr.2).*2.

(** The number of populated cells. *)
Definition n_cells (m : Maze) : nat := length (cells m).

(** Each cleared flag is one broken wall. *)
Definition n_broken (m : Maze) : nat :=
  (length (filter (λ c, wall_right c = false) (cells m)) +
   length (filter (λ c, wall_below c = false) (cells m)))%nat.

(** The passage graph is a tree over the populated cells. *)
Definition spanning_tree (m : Maze) : Prop :=
  connected (populated m) (passage m) ∧
  acyclic (passage m) ∧
  (n_broken m + 1)%nat = n_cells m.

(** ** States and examples *)

(** A fixed generator for the examples. *)
Definition rng0 : Rng := mkRng (λ n, n) 0.

(** The states a caller reaches with the two operations of [Maze],
    whatever they return or raise.  The last case is a [createCell]
    whose constructor call raises [RecursionError]; a [populateFrom]
    interrupted in the [createCell] of its seed leaves the same
    state. *)
Inductive reachable : State → Prop :=
| reach_init w h g : reachable (Maze_init w h, g)
| reach_createCell st px py :
    reachable st → reachable (snd (createCell (fst st) px py), snd st)
| reach_populateFrom st depth px py :
    reachable st → reachable (snd (populateFrom depth px py st))
| reach_createCell_raises st px py m' :
    reachable st → createCell_raises (fst st) px py = Some m' →
    reachable (m', snd st).

(** The maze of a single cell at (0, 0) with both walls. *)
Definition single_cell_maze : Maze :=
  mkMaze 1 1 (Some 0) (Some 0) (Some 0) (Some 0)
         {[ 0 := {[ 0 := mkCell 0 0 false true true ]} ]}.

(** ** Rendering, as text *)

(** The cell object [getCell] hands to the renderer at a position:
    the stored one inside the bounds, a transient one elsewhere. *)
Definition shown (m : Maze) (col row : Z) : Cell :=
  if decide (in_bounds m col row) then
    match cell_at m col row with
    | Some c => c
    | None => Cell_init m col row true
    end
  else Cell_init m col row true.

(** Concatenation of a list of strings. *)
Definition concat_str (l : list string) : string :=
  foldr (λ s acc, s +:+ acc)%string ""%string l.

(** One line of the rendering and the whole text. *)
Definition row_text (m : Maze) (cols : list Z) (row : Z) : string :=
  (concat_str ((λ col, Cell_str (shown m col row)) <$> cols) +:+ newline)%string.

Definition render (m : Maze) (rows cols : list Z) : string :=
  concat_str (row_text m cols <$> rows).

(** The text of one row without its newline, and the strings made of
    the three glyphs of a cell alone. *)
Definition row_body (m : Maze) (cols : list Z) (row : Z) : string :=
  concat_str ((λ col, Cell_str (shown m col row)) <$> cols).

Fixpoint glyphs (s : string) : Prop :=
  match s with
  | EmptyString => True
  | String c s' => (c = "_" ∨ c = "|" ∨ c = " ")%char ∧ glyphs s'
  end.

(** ** One maze extending another *)

(** [m'] has the bounds of [m], every cell of [m], every opening of
    [m], and a bounding box at least as wide. *)
Definition extends (m m' : Maze) : Prop :=
  max_width m' = max_width m ∧ max_height m' = max_height m ∧
  (∀ qx qy, cellExists m qx qy = true → cellExists m' qx qy = true) ∧
  (∀ qx qy, open_right m qx qy → open_right m' qx qy) ∧
  (∀ qx qy, open_below m qx qy → open_below m' qx qy) ∧
  (∀ v, min_x m = Some v → ∃ v', min_x m' = Some v' ∧ v' <= v) ∧
  (∀ v, min_y m = Some v → ∃ v', min_y m' = Some v' ∧ v' <= v) ∧
  (∀ v, max_x m = Some v → ∃ v', max_x m' = Some v' ∧ v <= v') ∧
  (∀ v, max_y m = Some v → ∃ v', max_y m' = Some v' ∧ v <= v').

(** * Properties *)

(** ** The store *)

Lemma cellExists_spec m px py :
  cellExists m px py = true ↔ is_Some (cell_at m px py).
Proof.
  unfold cellExists, cell_at.
  destruct (cellrows m !! py) as [row|]; [destruct (row !! px)|];
    split; intros H; try done; try (by eexists); by destruct H.
Qed.

Lemma cellExists_false m px py :
  cellExists m px py = false ↔ cell_at m px py = None.
Proof.
  unfold cellExists, cell_at.
  destruct (cellrows m !! py) as [row|]; [destruct (row !! px)|]; done.
Qed.

Lemma cell_at_put_cell m px py c qx qy :
  is_Some (cell_at m px py) →
  cell_at (put_cell m px py c) qx qy =
    if decide (qx = px ∧ qy = py) then Some c else cell_at m qx qy.
Proof.
  unfold cell_at, put_cell. intros [c0 H].
  destruct (cellrows m !! py) as [row|] eqn:Hrow; [|done]. simpl.
  destruct (decide (qy = py)) as [->|Hy].
  - rewrite lookup_insert_eq, Hrow.
    destruct (decide (qx = px)) as [->|Hx].
    + rewrite lookup_insert_eq. by rewrite decide_True.
    + rewrite lookup_insert_ne by done. rewrite decide_False; [done|tauto].
  - rewrite lookup_insert_ne by done. rewrite decide_False; [done|tauto].
Qed.

Lemma put_cell_fields m px py c :
  max_width (put_cell m px py c) = max_width m ∧
  max_height (put_cell m px py c) = max_height m ∧
  min_x (put_cell m px py c) = min_x m ∧
  min_y (put_cell m px py c) = min_y m ∧
  max_x (put_cell m px py c) = max_x m ∧
  max_y (put_cell m px py c) = max_y m.
Proof. unfold put_cell. by destruct (cellrows m !! py). Qed.

Lemma createCell_out m px py :
  ¬ in_bounds m px py → createCell m px py = (None, m).
Proof.
  unfold in_bounds, createCell. intros H.
  repeat case_bool_decide; simpl; try done. lia.
Qed.

Lemma createCell_in m px py :
  in_bounds m px py →
  ∃ m', createCell m px py = (Some (Stored px py), m') ∧
        max_width m' = max_width m ∧ max_height m' = max_height m ∧
        min_x m' = Some (lower (min_x m) px) ∧
        min_y m' = Some (lower (min_y m) py) ∧
        max_x m' = Some (upper (max_x m) px) ∧
        max_y m' = Some (upper (max_y m) py) ∧
        ∀ qx qy, cell_at m' qx qy =
          if decide (qx = px ∧ qy = py)
          then Some (default (mkCell px py false true true) (cell_at m px py))
          else cell_at m qx qy.
Proof.
  unfold in_bounds. intros [Hx Hy]. unfold createCell.
  rewrite !bool_decide_eq_false_2 by lia. simpl.
  assert (Hlo : ∀ v p, match v with
                       | None => Some p
                       | Some a => if bool_decide (a > p) then Some p else Some a
                       end = Some (lower v p)).
  { intros [a|] p; simpl; [|done]. case_bool_decide; f_equal; lia. }
  assert (Hup : ∀ v p, match v with
                       | None => Some p
                       | Some a => if bool_decide (a < p) then Some p else Some a
                       end = Some (upper v p)).
  { intros [a|] p; simpl; [|done]. case_bool_decide; f_equal; lia. }
  rewrite !Hlo, !Hup. unfold cell_at.
  destruct (cellrows m !! py) as [row|] eqn:Hrow; [destruct (row !! px) eqn:Hc|].
  - eexists. split; [done|]. simpl. repeat split.
    intros qx qy. case_decide as Hq; [|done].
    destruct Hq as [-> ->]. by rewrite Hrow.
  - eexists. split; [done|]. simpl. repeat split.
    intros qx qy. destruct (decide (qy = py)) as [->|Hne].
    + rewrite lookup_insert_eq, Hrow. destruct (decide (qx = px)) as [->|Hne].
      * by rewrite lookup_insert_eq, decide_True.
      * rewrite lookup_insert_ne by done. rewrite decide_False; [done|tauto].
    + rewrite lookup_insert_ne by done. rewrite decide_False; [done|tauto].
  - eexists. split; [done|]. simpl. repeat split.
    intros qx qy. destruct (decide (qy = py)) as [->|Hne].
    + rewrite lookup_insert_eq, Hrow. destruct (decide (qx = px)) as [->|Hne].
      * by rewrite lookup_singleton_eq, decide_True.
      * rewrite lookup_singleton_ne by done. rewrite decide_False; [done|tauto].
    + rewrite lookup_insert_ne by done. rewrite decide_False; [done|tauto].
Qed.

(** ** Well-formed mazes *)

Lemma wf_init w h : wf (Maze_init w h).
Proof.
  split; unfold cell_at; simpl; try (intros; by simplify_map_eq). by left.
Qed.

(** Writing a position inside the bounds into the bounding box. *)
Lemma box_ok_widen m m' px py :
  box_ok m → in_bounds m px py →
  max_width m' = max_width m → max_height m' = max_height m →
  min_x m' = Some (lower (min_x m) px) → min_y m' = Some (lower (min_y m) py) →
  max_x m' = Some (upper (max_x m) px) → max_y m' = Some (upper (max_y m) py) →
  box_ok m'.
Proof.
  intros Hbox [Hx Hy] Hw Hh Hmx Hmy HMx HMy. right.
  rewrite Hmx, Hmy, HMx, HMy, Hw, Hh.
  destruct Hbox as [(-> & -> & -> & ->)|(a & b & a' & b' & -> & -> & -> & -> & ? & ?)];
    do 4 eexists; (split_and!; [done|done|done|done|..]); simpl; lia.
Qed.

Lemma createCell_existing m px py c :
  wf m → cell_at m px py = Some c →
  createCell m px py = (Some (Stored px py), m).
Proof.
  intros Hwf Hc.
  destruct (wf_in _ Hwf _ _ _ Hc) as [Hx Hy].
  destruct (wf_box _ Hwf _ _ _ Hc)
    as (a & b & a' & b' & Ha & Hb & Ha' & Hb' & ? & ?).
  unfold createCell. rewrite !bool_decide_eq_false_2 by lia. simpl.
  rewrite Ha, Hb, Ha', Hb'. rewrite !bool_decide_eq_false_2 by lia.
  unfold cell_at in Hc.
  destruct (cellrows m !! py) as [row|]; [|done]. rewrite Hc.
  destruct m; simpl in *. by subst.
Qed.

Lemma wf_createCell m px py : wf m → wf (snd (createCell m px py)).
Proof.
  intros Hwf. destruct (decide (in_bounds m px py)) as [Hin|Hout];
    [|by rewrite createCell_out].
  destruct (cell_at m px py) as [c|] eqn:Hc;
    [by rewrite (createCell_existing _ _ _ c)|].
  destruct (createCell_in m px py Hin)
    as (m' & -> & Hw & Hh & Hmx & Hmy & HMx & HMy & Hat). simpl.
  rewrite Hc in Hat. simpl in Hat.
  assert (Hmono : ∀ qx qy, is_Some (cell_at m qx qy) → is_Some (cell_at m' qx qy)).
  { intros qx qy Hq. rewrite Hat. by case_decide. }
  split.
  - intros qx qy c'. rewrite Hat. case_decide as Hq.
    + destruct Hq as [-> ->]. by intros [= <-].
    + apply Hwf.
  - intros qx qy c'. rewrite Hat. unfold in_bounds. rewrite Hw, Hh. case_decide as Hq.
    + destruct Hq as [-> ->]. done.
    + apply Hwf.
  - intros qx qy c'. rewrite Hat, Hmx, Hmy, HMx, HMy.
    case_decide as Hq.
    + destruct Hq as [-> ->]. intros _. do 4 eexists. repeat split; try done;
        unfold lower, upper; repeat case_match; lia.
    + intros Hq'. destruct (wf_box _ Hwf _ _ _ Hq')
        as (a & b & a' & b' & -> & -> & -> & -> & ? & ?).
      do 4 eexists. repeat split; try done; simpl; lia.
  - intros qx qy c'. rewrite Hat. case_decide as Hq.
    + by intros [= <-].
    + intros ??. apply Hmono. by eapply wf_right.
  - intros qx qy c'. rewrite Hat. case_decide as Hq.
    + by intros [= <-].
    + intros ??. apply Hmono. by eapply wf_below.
  - apply (box_ok_widen m m' px py); [by apply wf_frame|done..].
Qed.

(** ** One carving step *)

Lemma breakWallRight_stored m px py c :
  cell_at m px py = Some c → empty c = false → wall_right c = true →
  breakWallRight m (Stored px py) = (Ok true, put_cell m px py (clear_right c)).
Proof. intros Hc He Hw. unfold breakWallRight. simpl. by rewrite Hc, He, Hw. Qed.

Lemma breakWallBelow_stored m px py c :
  cell_at m px py = Some c → empty c = false → wall_below c = true →
  breakWallBelow m (Stored px py) = (Ok true, put_cell m px py (clear_below c)).
Proof. intros Hc He Hw. unfold breakWallBelow. simpl. by rewrite Hc, He, Hw. Qed.

Lemma target_ne px py d : target (Stored px py) d ≠ (px, py).
Proof. destruct d; simpl; intros [= ]; lia. Qed.

(** A carving step from a stored cell towards a free position inside
    the bounds always succeeds, and this is its effect. *)
Lemma carve_effect m px py c d tx ty :
  wf m → cell_at m px py = Some c →
  target (Stored px py) d = (tx, ty) →
  cell_at m tx ty = None → in_bounds m tx ty →
  ∃ m1 m2, createCell m tx ty = (Some (Stored tx ty), m1) ∧
           connect d (Stored px py) (Stored tx ty) m1 = (Ok true, m2) ∧
           carved m m2 px py c d tx ty.
Proof.
  intros Hwf Hc Ht Hfree Hin.
  destruct (createCell_in m tx ty Hin)
    as (m1 & Hcr & Hw & Hh & Hmx & Hmy & HMx & HMy & Hat).
  rewrite Hfree in Hat. simpl in Hat.
  assert (Hne : ¬ (px = tx ∧ py = ty)).
  { intros [-> ->]. by eapply target_ne. }
  assert (Hnew : cell_at m1 tx ty = Some (mkCell tx ty false true true)).
  { rewrite Hat. by rewrite decide_True. }
  assert (Hpar : cell_at m1 px py = Some c).
  { rewrite Hat. by rewrite decide_False. }
  destruct (wf_key _ Hwf _ _ _ Hc) as (_ & _ & He).
  assert (Hr : d = DRight → wall_right c = true).
  { intros ->. simpl in Ht. injection Ht as <- <-.
    destruct (wall_right c) eqn:Hwr; [done|].
    destruct (wf_right _ Hwf _ _ _ Hc Hwr) as [? ?]. congruence. }
  assert (Hb : d = DBelow → wall_below c = true).
  { intros ->. simpl in Ht. injection Ht as <- <-.
    destruct (wall_below c) eqn:Hwb; [done|].
    destruct (wf_below _ Hwf _ _ _ Hc Hwb) as [? ?]. congruence. }
  exists m1.
  destruct d; simpl connect; eexists;
    (split; [exact Hcr|]);
    (split; [first [ by eapply breakWallRight_stored
                   | by eapply breakWallBelow_stored
                   | by (eapply breakWallRight_stored; eauto)
                   | by (eapply breakWallBelow_stored; eauto) ]|]);
    unfold carved;
    (split; [done|]); (split; [done|]); (split; [done|]); (split; [done|]);
    (split; [done|]); (split; [done|]);
    try (match goal with |- context [put_cell ?a ?b ?c ?d] =>
      destruct (put_cell_fields a b c d) as (-> & -> & -> & -> & -> & ->) end);
    (split; [done|]); (split; [done|]); (split; [done|]); (split; [done|]);
    (split; [done|]); (split; [done|]);
    intros qx qy; rewrite cell_at_put_cell by (by eexists);
    rewrite Hat; simpl; repeat case_decide; destruct_and?; subst;
    try done; tauto.
Qed.

Lemma carve_step_carved m m2 :
  wf m → carve_step m m2 →
  ∃ px py c d tx ty, carved m m2 px py c d tx ty.
Proof.
  intros Hwf (px & py & d & nc & m1 & b & [c Hc] & Hex & Hcr & Hcon).
  destruct (target (Stored px py) d) as [tx ty] eqn:Ht. simpl in *.
  apply cellExists_false in Hex.
  destruct (decide (in_bounds m tx ty)) as [Hin|Hout];
    [|by rewrite createCell_out in Hcr].
  destruct (carve_effect m px py c d tx ty) as (m1' & m2' & Hcr' & Hcon' & Hcv);
    try done.
  rewrite Hcr' in Hcr. injection Hcr as <- <-.
  rewrite Hcon' in Hcon. injection Hcon as <- <-.
  by exists px, py, c, d, tx, ty.
Qed.

Lemma carved_stored m m2 px py c d tx ty qx qy :
  carved m m2 px py c d tx ty →
  is_Some (cell_at m2 qx qy) ↔ is_Some (cell_at m qx qy) ∨ (qx = tx ∧ qy = ty).
Proof.
  intros (Hc & _ & _ & _ & _ & _ & _ & _ & _ & _ & _ & _ & Hat).
  rewrite Hat. destruct (decide (qx = tx ∧ qy = ty)) as [[-> ->]|Hn].
  - split; [intros; by right | intros; by eexists].
  - destruct (decide (qx = px ∧ qy = py)) as [[-> ->]|Hn2].
    + split; [intros; left; by eexists | intros; by eexists].
    + split; [intros; by left | intros [?|?]; [done|tauto]].
Qed.

Lemma carved_wf m m2 px py c d tx ty :
  wf m → carved m m2 px py c d tx ty → wf m2.
Proof.
  intros Hwf Hcv.
  pose proof (λ qx qy, carved_stored _ _ _ _ _ _ _ _ qx qy Hcv) as Hst.
  assert (Hmono : ∀ qx qy, is_Some (cell_at m qx qy) → is_Some (cell_at m2 qx qy)).
  { intros qx qy ?. apply Hst. by left. }
  destruct Hcv as (Hc & Ht & Hfree & Hin & Hr & Hb & Hw & Hh & Hmx & Hmy & HMx & HMy & Hat).
  pose proof (wf_createCell m tx ty Hwf) as Hwf1.
  destruct (createCell_in m tx ty Hin)
    as (m1 & Hcr & _ & _ & Hmx1 & Hmy1 & HMx1 & HMy1 & Hat1).
  rewrite Hcr in Hwf1. simpl in Hwf1.
  assert (Hst1 : ∀ qx qy, is_Some (cell_at m2 qx qy) ↔ is_Some (cell_at m1 qx qy)).
  { intros qx qy. rewrite Hst, Hat1. case_decide; [|tauto].
    split; [by eexists|tauto]. }
  split.
  - intros qx qy c'. rewrite Hat.
    destruct (decide (qx = tx ∧ qy = ty)) as [[-> ->]|?];
      [|destruct (decide (qx = px ∧ qy = py)) as [[-> ->]|?]].
    + intros [= <-]. by destruct d.
    + intros [= <-]. destruct (wf_key _ Hwf _ _ _ Hc) as (? & ? & ?).
      by destruct d.
    + apply Hwf.
  - intros qx qy c' Hq. unfold in_bounds. rewrite Hw, Hh.
    destruct (proj1 (Hst qx qy) (mk_is_Some _ _ Hq)) as [[c0 H0]|[-> ->]]; [|done].
    by eapply wf_in.
  - intros qx qy c' Hq.
    destruct (proj1 (Hst1 qx qy) (mk_is_Some _ _ Hq)) as [c1 H1].
    rewrite Hmx, Hmy, HMx, HMy, <- Hmx1, <- Hmy1, <- HMx1, <- HMy1.
    by eapply wf_box.
  - intros qx qy c'. rewrite Hat.
    destruct (decide (qx = tx ∧ qy = ty)) as [[-> ->]|?];
      [|destruct (decide (qx = px ∧ qy = py)) as [[-> ->]|?]].
    + intros [= <-] Hwr. destruct d; try done. simpl in Ht.
      injection Ht as Htx Hty. replace (tx + 1) with px by lia. subst ty.
      apply Hmono. by eexists.
    + intros [= <-] Hwr. destruct d; simpl in *;
        try (apply Hmono; by eapply wf_right).
      injection Ht as <- <-. apply Hst. by right.
    + intros ??. apply Hmono. by eapply wf_right.
  - intros qx qy c'. rewrite Hat.
    destruct (decide (qx = tx ∧ qy = ty)) as [[-> ->]|?];
      [|destruct (decide (qx = px ∧ qy = py)) as [[-> ->]|?]].
    + intros [= <-] Hwr. destruct d; try done. simpl in Ht.
      injection Ht as Htx Hty. replace (ty + 1) with py by lia. subst tx.
      apply Hmono. by eexists.
    + intros [= <-] Hwr. destruct d; simpl in *;
        try (apply Hmono; by eapply wf_below).
      injection Ht as <- <-. apply Hst. by right.
    + intros ??. apply Hmono. by eapply wf_below.
  - apply (box_ok_widen m m2 tx ty); [by apply wf_frame|done..].
Qed.

Lemma carve_step_wf m m2 : wf m → carve_step m m2 → wf m2.
Proof.
  intros Hwf Hs. destruct (carve_step_carved _ _ Hwf Hs) as (?&?&?&?&?&?&?).
  by eapply carved_wf.
Qed.

Lemma carve_step_mono m m2 qx qy :
  wf m → carve_step m m2 → is_Some (cell_at m qx qy) → is_Some (cell_at m2 qx qy).
Proof.
  intros Hwf Hs ?. destruct (carve_step_carved _ _ Hwf Hs) as (?&?&?&?&?&?&Hcv).
  apply (carved_stored _ _ _ _ _ _ _ _ _ _ Hcv). by left.
Qed.

Lemma carve_step_bounds m m2 :
  wf m → carve_step m m2 →
  max_width m2 = max_width m ∧ max_height m2 = max_height m.
Proof.
  intros Hwf Hs. destruct (carve_step_carved _ _ Hwf Hs) as (?&?&?&?&?&?&Hcv).
  unfold carved in Hcv. tauto.
Qed.

Lemma carves_wf m m2 : wf m → rtc carve_step m m2 → wf m2.
Proof. intros Hwf H. induction H; eauto using carve_step_wf. Qed.

Lemma carves_mono m m2 qx qy :
  wf m → rtc carve_step m m2 →
  is_Some (cell_at m qx qy) → is_Some (cell_at m2 qx qy).
Proof.
  intros Hwf H. induction H; eauto using carve_step_wf, carve_step_mono.
Qed.

Lemma carves_bounds m m2 :
  wf m → rtc carve_step m m2 →
  max_width m2 = max_width m ∧ max_height m2 = max_height m.
Proof.
  intros Hwf H. induction H as [|m m1 m2 Hs _ IH]; [done|].
  destruct (carve_step_bounds _ _ Hwf Hs) as [<- <-].
  eauto using carve_step_wf.
Qed.

(** ** Free positions: the termination measure *)

Lemma elem_of_box m px py : (px, py) ∈ box m ↔ in_bounds m px py.
Proof.
  unfold box, in_bounds. rewrite list_elem_of_bind. split.
  - intros (qx & Hb & Hx). apply elem_of_seqZ in Hx.
    apply list_elem_of_bind in Hb as (qy & Hq & Hy). apply elem_of_seqZ in Hy.
    apply list_elem_of_singleton in Hq. simplify_eq. lia.
  - intros [? ?]. exists px. split; [|apply elem_of_seqZ; lia].
    apply list_elem_of_bind. exists py. split; [apply list_elem_of_here|apply elem_of_seqZ; lia].
Qed.

Lemma carve_step_free m m2 : wf m → carve_step m m2 → (free m2 < free m)%nat.
Proof.
  intros Hwf Hs.
  destruct (carve_step_carved _ _ Hwf Hs) as (px & py & c & d & tx & ty & Hcv).
  pose proof (λ qx qy, carved_stored _ _ _ _ _ _ _ _ qx qy Hcv) as Hst.
  destruct Hcv as (Hc & Ht & Hfree & Hin & _ & _ & Hw & Hh & _).
  unfold free, box. rewrite Hw, Hh. fold (box m).
  rewrite <- (list_filter_filter_l
    (λ p : Z * Z, cell_at m2 p.1 p.2 = None) (λ p : Z * Z, cell_at m p.1 p.2 = None)).
  - apply length_filter_lt with (tx, ty).
    + apply list_elem_of_filter. split; [done|]. by apply elem_of_box.
    + simpl. intros Hn. assert (is_Some (cell_at m2 tx ty)) as [? ?]; [|congruence].
      apply Hst. by right.
  - intros [qx qy] Hn. simpl in *.
    destruct (cell_at m qx qy) eqn:Hq; [|done].
    assert (is_Some (cell_at m2 qx qy)) as [? ?]; [|congruence].
    apply Hst. left. by eexists.
Qed.

Lemma carves_free m m2 : wf m → rtc carve_step m m2 → (free m2 <= free m)%nat.
Proof.
  intros Hwf H. induction H as [|m m1 m2 Hs _ IH]; [done|].
  pose proof (carve_step_free _ _ Hwf Hs). pose proof (carve_step_wf _ _ Hwf Hs).
  specialize (IH ltac:(done)). lia.
Qed.

(** ** The carving procedure *)

Lemma closed_mono m m' px py :
  wf m → rtc carve_step m m' → closed m px py → closed m' px py.
Proof.
  intros Hwf Hs Hcl d Hin. eapply carves_mono; [done..|]. apply Hcl.
  unfold in_bounds in *. by destruct (carves_bounds _ _ Hwf Hs) as [<- <-].
Qed.

Lemma for_dirs_ok n rec :
  call_ok n rec →
  ∀ dirs px py st, wf (fst st) → is_Some (cell_at (fst st) px py) →
    ∃ r st', for_dirs rec (Stored px py) dirs st = (r, st') ∧
      rtc carve_step (fst st) (fst st') ∧
      (r = Ok tt ∨ r = Raise RecursionError) ∧
      (r = Ok tt → closed_new (fst st) (fst st') ∧
         ∀ d, d ∈ dirs →
           in_bounds (fst st') (target (Stored px py) d).1 (target (Stored px py) d).2 →
           is_Some (cell_at (fst st') (target (Stored px py) d).1
                                      (target (Stored px py) d).2)) ∧
      ((free (fst st) < S n)%nat → r = Ok tt).
Proof.
  intros Hrec dirs px py. induction dirs as [|d ds IH]; intros [m g] Hwf Hpar;
    simpl fst in *.
  { exists (Ok tt), (m, g). simpl. split_and!; try done; eauto.
    intros _. split; [|intros d Hd; by apply not_elem_of_nil in Hd].
    intros qx qy Hn [? ?]. congruence. }
  simpl for_dirs. destruct (target (Stored px py) d) as [tx ty] eqn:Ht.
  simpl fst. simpl snd.
  destruct (cellExists m tx ty) eqn:Hex.
  { (* the neighbour is already stored *)
    destruct (IH (m, g) Hwf Hpar) as (r & st' & Hrun & Hsteps & Hr & Hcl & Hterm).
    exists r, st'. split_and!; try done.
    intros Hok. destruct (Hcl Hok) as [Hnew Hds]. split; [done|].
    intros d' [->|Hd']%elem_of_cons; [|by apply Hds].
    rewrite Ht. simpl. intros _. eapply carves_mono; [done..|].
    by apply cellExists_spec. }
  apply cellExists_false in Hex.
  destruct (decide (in_bounds m tx ty)) as [Hin|Hout].
  2:{ (* the neighbour lies outside the bounds *)
    rewrite createCell_out by done.
    destruct (IH (m, g) Hwf Hpar) as (r & st' & Hrun & Hsteps & Hr & Hcl & Hterm).
    exists r, st'. split_and!; try done.
    intros Hok. destruct (Hcl Hok) as [Hnew Hds]. split; [done|].
    intros d' [->|Hd']%elem_of_cons; [|by apply Hds].
    rewrite Ht. simpl. intros Hin'. exfalso. apply Hout.
    unfold in_bounds in *. simpl in Hsteps.
    by destruct (carves_bounds _ _ Hwf Hsteps) as [<- <-]. }
  destruct Hpar as [c Hc].
  destruct (carve_effect m px py c d tx ty Hwf Hc Ht Hex Hin)
    as (m1 & m2 & Hcr & Hcon & Hcv).
  rewrite Hcr, Hcon.
  assert (Hstep : carve_step m m2).
  { exists px, py, d, (Stored tx ty), m1, true. rewrite Ht. simpl.
    split_and!; try done. by apply cellExists_false. }
  pose proof (carve_step_wf _ _ Hwf Hstep) as Hwf2.
  pose proof (carve_step_free _ _ Hwf Hstep) as Hfree2.
  assert (Htgt : is_Some (cell_at m2 tx ty)).
  { apply (carved_stored _ _ _ _ _ _ _ _ _ _ Hcv). by right. }
  destruct (Hrec tx ty (m2, g) Hwf2 Htgt)
    as (r & [m3 g3] & Hrun & Hsteps & Hr & Hcl & Hterm). simpl in *.
  rewrite Hrun.
  destruct Hr as [->| ->].
  2:{ exists (Raise RecursionError), (m3, g3). simpl. split_and!; try done; eauto.
      - by eapply rtc_l.
      - intros ?. assert (Raise RecursionError = Ok tt) by (apply Hterm; lia). done. }
  destruct (Hcl eq_refl) as [Hnew3 Hcl3].
  pose proof (carves_wf _ _ Hwf2 Hsteps) as Hwf3.
  assert (Hpar3 : is_Some (cell_at m3 px py)).
  { eapply carves_mono; [exact Hwf| |by eexists]. by eapply rtc_l. }
  destruct (IH (m3, g3) Hwf3 Hpar3)
    as (r & [m4 g4] & Hrun4 & Hsteps4 & Hr4 & Hcl4 & Hterm4). simpl in *.
  exists r, (m4, g4). simpl. split_and!; try done.
  - eapply rtc_l; [done|]. by etrans.
  - intros Hok. destruct (Hcl4 Hok) as [Hnew4 Hds]. split.
    + intros qx qy Hn Hs.
      destruct (cell_at m3 qx qy) eqn:H3; [|by apply Hnew4].
      eapply closed_mono; [done..|].
      destruct (cell_at m2 qx qy) eqn:H2; [|apply Hnew3; [done|by eexists]].
      destruct (proj1 (carved_stored _ _ _ _ _ _ _ _ qx qy Hcv) (mk_is_Some _ _ H2))
        as [[? ?]|[-> ->]]; [congruence|done].
    + intros d' [->|Hd']%elem_of_cons; [|by apply Hds].
      rewrite Ht. simpl. intros _.
      eapply carves_mono; [exact Hwf2|by etrans|done].
  - intros ?. apply Hterm4. pose proof (carves_free _ _ Hwf2 Hsteps). lia.
Qed.

Lemma order_of_all k d : d ∈ order_of k.
Proof.
  assert (order_of k ∈ orders) as Hin.
  { unfold order_of. apply list_elem_of_In, nth_In.
    change (length orders) with 24%nat. apply Nat.mod_upper_bound. lia. }
  apply permutations_Permutation in Hin. rewrite <- Hin.
  destruct d; unfold directions; set_solver.
Qed.

(** Every order of the four directions is drawn by some number. *)
Lemma order_of_onto (l : list Dir) : l ≡ₚ directions → ∃ k, order_of k = l.
Proof.
  intros Hl. assert (l ∈ orders) as Hin.
  { apply permutations_Permutation. by symmetry. }
  apply list_elem_of_lookup in Hin as [i Hi].
  pose proof (lookup_lt_Some _ _ _ Hi) as Hlt.
  change (length orders) with 24%nat in Hlt.
  exists i. unfold order_of. rewrite Nat.mod_small by done.
  by apply nth_lookup_Some.
Qed.

Lemma _recursivePopulate_ok n : call_ok n (_recursivePopulate n).
Proof.
  induction n as [|n IH]; intros px py [m g] Hwf Hpar; simpl in *.
  { exists (Raise RecursionError), (m, g). split_and!; try done; eauto. lia. }
  destruct (for_dirs_ok n _ IH (order_of (draw g (pos g))) px py
              (m, mkRng (draw g) (S (pos g))) Hwf Hpar)
    as (r & st' & Hrun & Hsteps & Hr & Hcl & Hterm).
  exists r, st'. split_and!; try done.
  intros Hok. destruct (Hcl Hok) as [Hnew Hds]. split; [done|].
  intros d. apply Hds, order_of_all.
Qed.

(** ** Graphs grown one vertex at a time *)

Section Graph.
Context {A : Type} `{EqDecision A}.
Implicit Types (V : A → Prop) (E : relation A).

(** A vertex on a cycle has two distinct neighbours on it. *)
Lemma cycle_neighbours E l v :
  cycle E l → v ∈ l → ∃ a b, a ≠ b ∧ a ≠ v ∧ b ≠ v ∧ E a v ∧ E v b.
Proof.
  intros (Hlen & Hnd & Hedge) [i Hi]%list_elem_of_lookup.
  pose proof (lookup_lt_Some _ _ _ Hi) as Hlt.
  set (n := length l) in *.
  set (k := if decide (i = 0%nat) then (n - 1)%nat else (i - 1)%nat).
  assert (Hk : (k < n)%nat) by (unfold k; case_decide; lia).
  assert (Hnk : next_index n k = i).
  { unfold next_index, k. repeat case_decide; lia. }
  assert (Hj : (next_index n i < n)%nat).
  { unfold next_index. case_decide; lia. }
  destruct (lookup_lt_is_Some_2 l k Hk) as [a Ha].
  destruct (lookup_lt_is_Some_2 l _ Hj) as [b Hb].
  exists a, b. split_and!.
  - intros ->. assert (k = next_index n i) as Heq by (by eapply NoDup_lookup).
    unfold next_index, k in Heq. repeat case_decide; lia.
  - intros ->. assert (k = i) as Heq by (by eapply NoDup_lookup).
    unfold k in Heq. case_decide; lia.
  - intros ->. assert (next_index n i = i) as Heq by (by eapply NoDup_lookup).
    unfold next_index in Heq. case_decide; lia.
  - apply (Hedge k); [done|]. by rewrite Hnk.
  - by apply (Hedge i).
Qed.

(** Growing a graph by one fresh vertex [v] hung on a vertex [u]. *)
Section Grow.
Variables (V V' : A → Prop) (E E' : relation A) (u v : A).
Hypothesis HV' : ∀ p, V' p ↔ V p ∨ p = v.
Hypothesis HE' : ∀ p q, E' p q ↔ E p q ∨ (p = u ∧ q = v) ∨ (p = v ∧ q = u).
Hypothesis HEV : ∀ p q, E p q → V p ∧ V q.
Hypothesis Hu : V u.
Hypothesis Hv : ¬ V v.

Lemma connected_grow : connected V E → connected V' E'.
Proof.
  intros Hcon.
  assert (Hsub : ∀ p q, rtc E p q → rtc E' p q).
  { intros p q. apply rtc_subrel. intros ???. apply HE'. by left. }
  assert (Huv : E' u v) by (apply HE'; right; left; done).
  assert (Hvu : E' v u) by (apply HE'; right; right; done).
  intros p q [Hp| ->]%HV' [Hq| ->]%HV'.
  - by apply Hsub, Hcon.
  - eapply rtc_r; [|exact Huv]. by apply Hsub, Hcon.
  - eapply rtc_l; [exact Hvu|]. by apply Hsub, Hcon.
  - done.
Qed.

Lemma acyclic_grow : acyclic E → acyclic E'.
Proof.
  intros Hac l Hcyc.
  destruct (decide (v ∈ l)) as [Hin|Hnin].
  - destruct (cycle_neighbours _ _ _ Hcyc Hin)
      as (a & b & Hab & Hav & Hbv & Ha & Hb).
    apply HE' in Ha as [Ha|[[-> _]|[? _]]]; [|clear Hav|done].
    { apply HEV in Ha. tauto. }
    apply HE' in Hb as [Hb|[[_ ?]|[_ ->]]]; [|done|done].
    apply HEV in Hb. tauto.
  - apply (Hac l). destruct Hcyc as (Hlen & Hnd & Hedge).
    split_and!; try done. intros i a b Ha Hb.
    destruct (proj1 (HE' a b) (Hedge i a b Ha Hb)) as [?|[[_ ->]|[-> _]]];
      [done|..]; exfalso; apply Hnin; by eapply list_elem_of_lookup_2.
Qed.
End Grow.
End Graph.

(** ** The passage graph of a maze *)

Lemma open_right_spec m px py :
  open_right m px py ↔ ∃ c, cell_at m px py = Some c ∧ wall_right c = false.
Proof.
  unfold open_right, hasWallRight. simpl. destruct (cell_at m px py) as [c|].
  - split; [intros [= ?]; eauto|]. by intros (? & [= <-] & ->).
  - split; [done|]. by intros (? & ? & ?).
Qed.

Lemma open_below_spec m px py :
  open_below m px py ↔ ∃ c, cell_at m px py = Some c ∧ wall_below c = false.
Proof.
  unfold open_below, hasWallBelow. simpl. destruct (cell_at m px py) as [c|].
  - split; [intros [= ?]; eauto|]. by intros (? & [= <-] & ->).
  - split; [done|]. by intros (? & ? & ?).
Qed.

Lemma passage_populated m p q :
  wf m → passage m p q → populated m p ∧ populated m q.
Proof.
  intros Hwf. unfold passage, populated.
  rewrite !open_right_spec, !open_below_spec.
  intros [[(c & Hc & Hw) ->]|[[(c & Hc & Hw) ->]|[[(c & Hc & Hw) ->]|[(c & Hc & Hw) ->]]]];
    simpl; split; try (by eexists);
    first [by eapply wf_right | by eapply wf_below].
Qed.

Lemma open_right_carved m m2 px py c d tx ty qx qy :
  wf m → carved m m2 px py c d tx ty →
  open_right m2 qx qy ↔
    open_right m qx qy ∨ (d = DRight ∧ qx = px ∧ qy = py) ∨ (d = DLeft ∧ qx = tx ∧ qy = ty).
Proof.
  intros Hwf (Hc & Ht & Hfree & Hin & Hr & Hb & _ & _ & _ & _ & _ & _ & Hat).
  rewrite !open_right_spec, Hat.
  destruct (decide (qx = tx ∧ qy = ty)) as [[-> ->]|Hn];
    [|destruct (decide (qx = px ∧ qy = py)) as [[-> ->]|Hn2]].
  - rewrite Hfree. split.
    + intros (? & [= <-] & ?). destruct d; try done. by right; right.
    + intros [(? & ? & ?)|[(-> & -> & ->)|(-> & _)]]; try done.
      * by destruct (target_ne px py DRight).
      * by eexists.
  - rewrite Hc. split.
    + intros (? & [= <-] & ?). destruct d; eauto.
    + intros [(? & [= <-] & ?)|[(-> & _)|(-> & -> & ->)]]; try (destruct d; by eauto).
      * by eexists.
      * by destruct (target_ne tx ty DLeft).
  - split; [by left|]. intros [?|[(_ & ? & ?)|(_ & ? & ?)]]; tauto.
Qed.

Lemma open_below_carved m m2 px py c d tx ty qx qy :
  wf m → carved m m2 px py c d tx ty →
  open_below m2 qx qy ↔
    open_below m qx qy ∨ (d = DBelow ∧ qx = px ∧ qy = py) ∨ (d = DAbove ∧ qx = tx ∧ qy = ty).
Proof.
  intros Hwf (Hc & Ht & Hfree & Hin & Hr & Hb & _ & _ & _ & _ & _ & _ & Hat).
  rewrite !open_below_spec, Hat.
  destruct (decide (qx = tx ∧ qy = ty)) as [[-> ->]|Hn];
    [|destruct (decide (qx = px ∧ qy = py)) as [[-> ->]|Hn2]].
  - rewrite Hfree. split.
    + intros (? & [= <-] & ?). destruct d; try done. by right; right.
    + intros [(? & ? & ?)|[(-> & -> & ->)|(-> & _)]]; try done.
      * by destruct (target_ne px py DBelow).
      * by eexists.
  - rewrite Hc. split.
    + intros (? & [= <-] & ?). destruct d; eauto.
    + intros [(? & [= <-] & ?)|[(-> & _)|(-> & -> & ->)]]; try (destruct d; by eauto).
      * by eexists.
      * by destruct (target_ne tx ty DAbove).
  - split; [by left|]. intros [?|[(_ & ? & ?)|(_ & ? & ?)]]; tauto.
Qed.

(** A carving step adds exactly the passage between the parent and
    the new cell. *)
Lemma passage_carved m m2 px py c d tx ty p q :
  wf m → carved m m2 px py c d tx ty →
  passage m2 p q ↔
    passage m p q ∨ (p = (px, py) ∧ q = (tx, ty)) ∨ (p = (tx, ty) ∧ q = (px, py)).
Proof.
  intros Hwf Hcv. unfold passage.
  rewrite !(open_right_carved _ _ _ _ _ _ _ _ _ _ Hwf Hcv).
  rewrite !(open_below_carved _ _ _ _ _ _ _ _ _ _ Hwf Hcv).
  destruct Hcv as (_ & Ht & _). destruct p as [p1 p2], q as [q1 q2]. simpl.
  destruct d; simpl in Ht; injection Ht as <- <-;
    (split; intros H;
     repeat first [progress destruct_or? | progress destruct_and?];
     simplify_eq; pick).
Qed.

(** ** Counting cells and broken walls *)

Lemma elem_of_cells m c : c ∈ cells m ↔ ∃ px py, cell_at m px py = Some c.
Proof.
  unfold cells, cell_at. rewrite list_elem_of_bind. split.
  - intros ([py row] & Hc & Hrow). simpl in *.
    apply elem_of_map_to_list in Hrow.
    apply list_elem_of_fmap in Hc as ([px c'] & -> & Hc).
    apply elem_of_map_to_list in Hc. exists px, py. by rewrite Hrow.
  - intros (px & py & Hc).
    destruct (cellrows m !! py) as [row|] eqn:Hrow; [|done].
    exists (py, row). split; [|by apply elem_of_map_to_list].
    apply list_elem_of_fmap. exists (px, c). split; [done|].
    by apply elem_of_map_to_list.
Qed.

Lemma NoDup_cells m : wf m → NoDup (cells m).
Proof.
  intros Hwf. unfold cells. apply NoDup_bind.
  - intros [y1 r1] [y2 r2] c H1%elem_of_map_to_list H2%elem_of_map_to_list. simpl.
    intros ([x1 c1] & -> & Hc1%elem_of_map_to_list)%list_elem_of_fmap.
    intros ([x2 c2] & Heq & Hc2%elem_of_map_to_list)%list_elem_of_fmap.
    simpl in *. subst c2.
    assert (cell_at m x1 y1 = Some c1) as Ha by (unfold cell_at; by rewrite H1).
    assert (cell_at m x2 y2 = Some c1) as Hb by (unfold cell_at; by rewrite H2).
    destruct (wf_key _ Hwf _ _ _ Ha) as (_ & <- & _).
    destruct (wf_key _ Hwf _ _ _ Hb) as (_ & <- & _).
    congruence.
  - intros [y1 r1] H1%elem_of_map_to_list. simpl.
    apply NoDup_fmap_2_strong; [|apply NoDup_map_to_list].
    intros [x1 c1] [x2 c2] Hc1%elem_of_map_to_list Hc2%elem_of_map_to_list Heq.
    simpl in *. subst c2.
    assert (cell_at m x1 y1 = Some c1) as Ha by (unfold cell_at; by rewrite H1).
    assert (cell_at m x2 y1 = Some c1) as Hb by (unfold cell_at; by rewrite H1).
    destruct (wf_key _ Hwf _ _ _ Ha) as (<- & _ & _).
    destruct (wf_key _ Hwf _ _ _ Hb) as (<- & _ & _).
    done.
  - apply NoDup_map_to_list.
Qed.

Lemma Permutation_take_out {A} `{EqDecision A} (l : list A) (a : A) :
  NoDup l → a ∈ l → l ≡ₚ a :: filter (λ b, b ≠ a) l.
Proof.
  intros Hnd Ha. apply NoDup_Permutation; [done| |].
  - apply NoDup_cons. split; [|by apply NoDup_filter].
    rewrite list_elem_of_filter. tauto.
  - intros b. rewrite elem_of_cons, list_elem_of_filter.
    destruct (decide (b = a)) as [->|]; tauto.
Qed.

(** A carving step keeps every cell but the parent, replaces the
    parent and adds the new cell. *)
Lemma cells_carved m m2 px py c d tx ty :
  wf m → carved m m2 px py c d tx ty →
  cells m ≡ₚ c :: filter (λ b, b ≠ c) (cells m) ∧
  cells m2 ≡ₚ new_cell d tx ty :: parent_cell d c :: filter (λ b, b ≠ c) (cells m).
Proof.
  intros Hwf Hcv. pose proof (carved_wf _ _ _ _ _ _ _ _ Hwf Hcv) as Hwf2.
  destruct Hcv as (Hc & Ht & Hfree & Hin & _ & _ & _ & _ & _ & _ & _ & _ & Hat).
  destruct (wf_key _ Hwf _ _ _ Hc) as (Hkx & Hky & _).
  assert (Hpc : x (parent_cell d c) = px ∧ y (parent_cell d c) = py)
    by (by destruct d).
  assert (Hnc : x (new_cell d tx ty) = tx ∧ y (new_cell d tx ty) = ty)
    by (by destruct d).
  assert (Hne : ¬ (px = tx ∧ py = ty)).
  { intros [-> ->]. by eapply target_ne. }
  split.
  { apply Permutation_take_out; [by apply NoDup_cells|].
    apply elem_of_cells. eauto. }
  apply NoDup_Permutation; [by apply NoDup_cells| |].
  - apply NoDup_cons. split; [|apply NoDup_cons; split].
    + rewrite elem_of_cons, list_elem_of_filter, elem_of_cells.
      intros [Heq|[_ (qx & qy & Hq)]].
      * rewrite Heq in Hnc. lia.
      * destruct (wf_key _ Hwf _ _ _ Hq) as (? & ? & _). destruct Hnc.
        congruence.
    + rewrite list_elem_of_filter, elem_of_cells.
      intros [Hneq (qx & qy & Hq)].
      destruct (wf_key _ Hwf _ _ _ Hq) as (? & ? & _). destruct Hpc.
      apply Hneq. congruence.
    + apply NoDup_filter. by apply NoDup_cells.
  - intros c'. rewrite !elem_of_cons, list_elem_of_filter, !elem_of_cells. split.
    + intros (qx & qy & Hq). rewrite Hat in Hq.
      destruct (decide (qx = tx ∧ qy = ty)) as [[-> ->]|?]; [left; congruence|].
      destruct (decide (qx = px ∧ qy = py)) as [[-> ->]|?]; [right; left; congruence|].
      right. right. split; [|eauto]. intros ->.
      destruct (wf_key _ Hwf _ _ _ Hq) as (? & ? & _). lia.
    + intros [->|[->|[Hneq (qx & qy & Hq)]]].
      * exists tx, ty. rewrite Hat. by rewrite decide_True.
      * exists px, py. rewrite Hat. rewrite decide_False by done.
        by rewrite decide_True.
      * exists qx, qy. rewrite Hat.
        rewrite decide_False by (intros [-> ->]; congruence).
        rewrite decide_False; [done|]. intros [-> ->]. congruence.
Qed.

Lemma counts_carved m m2 px py c d tx ty :
  wf m → carved m m2 px py c d tx ty →
  n_cells m2 = S (n_cells m) ∧ n_broken m2 = S (n_broken m).
Proof.
  intros Hwf Hcv. destruct (cells_carved _ _ _ _ _ _ _ _ Hwf Hcv) as [H1 H2].
  destruct Hcv as (_ & _ & _ & _ & Hr & Hb & _).
  set (rest := filter (λ b, b ≠ c) (cells m)) in *.
  unfold n_cells, n_broken. rewrite H2, H1. split; [done|].
  rewrite !filter_cons.
  destruct d; simpl; try specialize (Hr eq_refl); try specialize (Hb eq_refl);
    repeat case_decide; simpl in *; try congruence; lia.
Qed.

(** ** Spanning trees *)

Lemma spanning_tree_carve m m2 :
  wf m → carve_step m m2 → spanning_tree m → spanning_tree m2.
Proof.
  intros Hwf Hs (Hcon & Hac & Hcount).
  destruct (carve_step_carved _ _ Hwf Hs) as (px & py & c & d & tx & ty & Hcv).
  destruct (counts_carved _ _ _ _ _ _ _ _ Hwf Hcv) as [Hn Hb].
  assert (HV' : ∀ p, populated m2 p ↔ populated m p ∨ p = (tx, ty)).
  { intros [p1 p2]. unfold populated. simpl.
    rewrite (carved_stored _ _ _ _ _ _ _ _ p1 p2 Hcv).
    split; (intros [?|?]; [by left|right]); [by destruct_and?; subst|].
    by simplify_eq. }
  pose proof (λ p q, passage_carved _ _ _ _ _ _ _ _ p q Hwf Hcv) as HE'.
  pose proof (λ p q, passage_populated m p q Hwf) as HEV.
  destruct Hcv as (Hc & _ & Hfree & _).
  assert (Hu : populated m (px, py)) by (by eexists).
  assert (Hv : ¬ populated m (tx, ty)).
  { unfold populated. simpl. rewrite Hfree. by intros [? ?]. }
  split_and!.
  - by eapply connected_grow.
  - by eapply acyclic_grow.
  - lia.
Qed.

Lemma spanning_tree_carves m m2 :
  wf m → rtc carve_step m m2 → spanning_tree m → spanning_tree m2.
Proof.
  intros Hwf H. induction H; eauto using carve_step_wf, spanning_tree_carve.
Qed.

(** The maze holding the seed cell alone. *)
Lemma spanning_tree_seed w h px py m1 :
  createCell (Maze_init w h) px py = (Some (Stored px py), m1) →
  spanning_tree m1.
Proof.
  intros Hcr.
  destruct (decide (in_bounds (Maze_init w h) px py)) as [Hin|Hout];
    [|by rewrite createCell_out in Hcr].
  destruct (createCell_in _ _ _ Hin) as (m' & Hcr' & _ & _ & _ & _ & _ & _ & Hat).
  rewrite Hcr in Hcr'. injection Hcr' as <-.
  assert (Hat' : ∀ qx qy, cell_at m1 qx qy =
            if decide (qx = px ∧ qy = py) then Some (mkCell px py false true true)
            else None).
  { intros qx qy. rewrite Hat. unfold cell_at. simpl. by rewrite !lookup_empty. }
  assert (Hnp : ∀ p q, ¬ passage m1 p q).
  { intros p q. unfold passage. rewrite !open_right_spec, !open_below_spec.
    intros H; destruct_or?; destruct H as [(c & Hc & Hwl) _];
      rewrite Hat' in Hc; case_decide; by simplify_eq. }
  split_and!.
  - intros [p1 p2] [q1 q2]. unfold populated. simpl. rewrite !Hat'.
    repeat case_decide; try (by intros [? ?]); try (by intros _ [? ?]).
    intros _ _. destruct_and?. by subst.
  - intros l (Hlen & _ & Hedge).
    destruct (lookup_lt_is_Some_2 l 0%nat ltac:(lia)) as [a Ha].
    destruct (lookup_lt_is_Some_2 l (next_index (length l) 0) ltac:(
      unfold next_index; case_decide; lia)) as [b Hb].
    exact (Hnp a b (Hedge 0%nat a b Ha Hb)).
  - assert (cells m1 ≡ₚ [mkCell px py false true true]) as Hcells.
    { apply NoDup_Permutation.
      - apply NoDup_cells. pose proof (wf_createCell _ px py (wf_init w h)) as Hwf.
        by rewrite Hcr in Hwf.
      - apply NoDup_singleton.
      - intros c. rewrite elem_of_cells, list_elem_of_singleton. split.
        + intros (qx & qy & Hq). rewrite Hat' in Hq. case_decide; by simplify_eq.
        + intros ->. exists px, py. rewrite Hat'. by rewrite decide_True. }
    unfold n_broken, n_cells. rewrite Hcells. done.
Qed.

(** ** The grid is connected *)

Lemma line_ind (P : Z → Prop) (lo hi z0 : Z) :
  lo <= z0 < hi → P z0 →
  (∀ z, lo <= z < hi → P z →
        (lo <= z + 1 < hi → P (z + 1)) ∧ (lo <= z - 1 < hi → P (z - 1))) →
  ∀ z, lo <= z < hi → P z.
Proof.
  intros H0 HP0 Hstep z.
  remember (Z.to_nat (Z.abs (z - z0))) as n eqn:Hn.
  revert z Hn. induction n as [|n IH]; intros z Hn Hz.
  { assert (z = z0) as -> by lia. done. }
  destruct (decide (z0 < z)).
  - replace z with (z - 1 + 1) by lia.
    apply Hstep; [lia| |lia]. apply IH; lia.
  - replace z with (z + 1 - 1) by lia.
    apply Hstep; [lia| |lia]. apply IH; lia.
Qed.

(** A set of stored cells that is closed under neighbours fills the
    bounds. *)
Lemma closed_all m x0 y0 :
  in_bounds m x0 y0 → is_Some (cell_at m x0 y0) →
  (∀ qx qy, is_Some (cell_at m qx qy) → closed m qx qy) →
  ∀ qx qy, in_bounds m qx qy → is_Some (cell_at m qx qy).
Proof.
  intros [Hx0 Hy0] H0 Hcl qx qy [Hx Hy].
  assert (Hrow : is_Some (cell_at m qx y0)).
  { apply (line_ind (λ z, is_Some (cell_at m z y0)) 0 (max_width m) x0); try done.
    intros z Hz Hs. split; intros Hz'.
    - apply (Hcl z y0 Hs DRight). by split.
    - apply (Hcl z y0 Hs DLeft). by split. }
  apply (line_ind (λ z, is_Some (cell_at m qx z)) 0 (max_height m) y0); try done.
  intros z Hz Hs. split; intros Hz'.
  - apply (Hcl qx z Hs DBelow). by split.
  - apply (Hcl qx z Hs DAbove). by split.
Qed.

Lemma length_box m :
  length (box m) = (Z.to_nat (max_width m) * Z.to_nat (max_height m))%nat.
Proof.
  unfold box.
  assert (Hin : ∀ (l : list Z) (a : Z),
            length (l ≫= λ b, [(a, b)]) = length l).
  { induction l as [|b l IH]; intros a; csimpl; [done|]. by rewrite IH. }
  assert (Hout : ∀ (l : list Z) (k : list Z),
            length (l ≫= λ a, k ≫= λ b, [(a, b)]) = (length l * length k)%nat).
  { induction l as [|a l IH]; intros k; csimpl; [done|].
    by rewrite length_app, Hin, IH. }
  by rewrite Hout, !length_seqZ.
Qed.

Lemma createCell_free m px py m1 :
  in_bounds m px py → cell_at m px py = None →
  createCell m px py = (Some (Stored px py), m1) →
  (free m1 < free m)%nat.
Proof.
  intros Hin Hn Hcr.
  destruct (createCell_in _ _ _ Hin) as (m' & Hcr' & Hw & Hh & _ & _ & _ & _ & Hat).
  rewrite Hcr in Hcr'. injection Hcr' as <-.
  unfold free, box. rewrite Hw, Hh. fold (box m).
  rewrite <- (list_filter_filter_l
    (λ p : Z * Z, cell_at m1 p.1 p.2 = None) (λ p : Z * Z, cell_at m p.1 p.2 = None)).
  - apply length_filter_lt with (px, py).
    + apply list_elem_of_filter. split; [done|]. by apply elem_of_box.
    + simpl. rewrite Hat. by rewrite decide_True.
  - intros [qx qy]. simpl. rewrite Hat. by case_decide.
Qed.

(** ** Reachable states *)

Lemma populateFrom_stored depth px py st :
  cellExists (fst st) px py = true → populateFrom depth px py st = (Ok false, st).
Proof. intros H. unfold populateFrom. by rewrite H. Qed.

Lemma populateFrom_out depth px py st :
  cellExists (fst st) px py = false → ¬ in_bounds (fst st) px py →
  populateFrom depth px py st =
    (Raise (match depth with O => RecursionError | S _ => AttributeError end), st).
Proof.
  intros H Hout. unfold populateFrom. rewrite H, createCell_out by done.
  destruct st as [m g]. by destruct depth.
Qed.

Lemma populateFrom_in depth px py st :
  wf (fst st) → cellExists (fst st) px py = false → in_bounds (fst st) px py →
  ∃ m1 r st',
    createCell (fst st) px py = (Some (Stored px py), m1) ∧
    _recursivePopulate depth (Some (Stored px py)) (m1, snd st) = (r, st') ∧
    populateFrom depth px py st =
      (match r with Ok _ => Ok true | Raise e => Raise e end, st') ∧
    wf m1 ∧ is_Some (cell_at m1 px py) ∧
    rtc carve_step m1 (fst st') ∧
    (r = Ok tt ∨ r = Raise RecursionError) ∧
    (r = Ok tt → closed_new m1 (fst st') ∧ closed (fst st') px py) ∧
    ((free (fst st) <= depth)%nat → r = Ok tt).
Proof.
  intros Hwf Hex Hin. apply cellExists_false in Hex.
  destruct (createCell_in _ _ _ Hin) as (m1 & Hcr & _ & _ & _ & _ & _ & _ & Hat).
  pose proof (wf_createCell _ px py Hwf) as Hwf1. rewrite Hcr in Hwf1.
  assert (Hs : is_Some (cell_at m1 px py)).
  { rewrite Hat. by rewrite decide_True. }
  destruct (_recursivePopulate_ok depth px py (m1, snd st) Hwf1 Hs)
    as (r & st' & Hrun & Hsteps & Hr & Hcl & Hterm).
  exists m1, r, st'. split_and!; try done.
  - unfold populateFrom. apply cellExists_false in Hex. rewrite Hex, Hcr, Hrun.
    by destruct r.
  - intros Hd. apply Hterm. simpl.
    pose proof (createCell_free _ _ _ _ Hin Hex Hcr). lia.
Qed.

(** The interrupted [createCell] was called inside the bounds on a
    free position; it keeps the cells and the declared bounds and
    writes the position into the bounding box. *)
Lemma createCell_raises_spec m px py m' :
  createCell_raises m px py = Some m' →
  in_bounds m px py ∧ cell_at m px py = None ∧
  cellrows m' = cellrows m ∧
  max_width m' = max_width m ∧ max_height m' = max_height m ∧
  min_x m' = Some (lower (min_x m) px) ∧
  min_y m' = Some (lower (min_y m) py) ∧
  max_x m' = Some (upper (max_x m) px) ∧
  max_y m' = Some (upper (max_y m) py).
Proof.
  unfold createCell_raises, in_bounds, cell_at. intros Hr.
  repeat case_bool_decide; simpl in Hr; try done.
  assert (Hlo : ∀ v p, match v with
                       | None => Some p
                       | Some a => if bool_decide (a > p) then Some p else Some a
                       end = Some (lower v p)).
  { intros [a|] p; simpl; [|done]. case_bool_decide; f_equal; lia. }
  assert (Hup : ∀ v p, match v with
                       | None => Some p
                       | Some a => if bool_decide (a < p) then Some p else Some a
                       end = Some (upper v p)).
  { intros [a|] p; simpl; [|done]. case_bool_decide; f_equal; lia. }
  rewrite !Hlo, !Hup in Hr.
  destruct (cellrows m !! py) as [row|] eqn:Hrow;
    [destruct (row !! px) eqn:Hc; [done|]|];
    injection Hr as <-; simpl; split_and!; try done; lia.
Qed.

Lemma wf_createCell_raises m px py m' :
  wf m → createCell_raises m px py = Some m' → wf m'.
Proof.
  intros Hwf (Hin & Hn & Hrows & Hw & Hh & Hmx & Hmy & HMx & HMy)%createCell_raises_spec.
  assert (Hat : ∀ qx qy, cell_at m' qx qy = cell_at m qx qy).
  { intros qx qy. unfold cell_at. by rewrite Hrows. }
  split.
  - intros qx qy c. rewrite Hat. apply Hwf.
  - intros qx qy c. rewrite Hat. unfold in_bounds. rewrite Hw, Hh. apply Hwf.
  - intros qx qy c. rewrite Hat, Hmx, Hmy, HMx, HMy. intros Hc.
    destruct (wf_box _ Hwf _ _ _ Hc) as (a & b & a' & b' & -> & -> & -> & -> & ? & ?).
    do 4 eexists. repeat split; try done; simpl; lia.
  - intros qx qy c. rewrite !Hat. apply Hwf.
  - intros qx qy c. rewrite !Hat. apply Hwf.
  - apply (box_ok_widen m m' px py); [by apply wf_frame|done..].
Qed.

Lemma reachable_wf st : reachable st → wf (fst st).
Proof.
  induction 1 as [w h g|st px py _ IH|st depth px py _ IH|st px py m' _ IH Hr];
    simpl; [| | |by eapply wf_createCell_raises].
  - apply wf_init.
  - by apply wf_createCell.
  - destruct (cellExists (fst st) px py) eqn:Hex.
    { by rewrite populateFrom_stored. }
    destruct (decide (in_bounds (fst st) px py)) as [Hin|Hout].
    2:{ by rewrite populateFrom_out. }
    destruct (populateFrom_in depth px py st IH Hex Hin)
      as (m1 & r & st' & _ & _ & -> & Hwf1 & _ & Hsteps & _).
    simpl. by eapply carves_wf.
Qed.

(** ** Rendering returns once the bounding box is set *)




(** * The claims *)

(** C1.  On an empty maze with positive bounds and a seed inside them,
    [populateFrom] returns [True] as soon as the interpreter allows as
    many nested calls as there are positions; and whenever it returns
    [True], every position inside the bounds holds a real cell, the
    number of broken walls is the number of cells minus one, and the
    passage graph is connected and has no cycle. *)
Theorem populateFrom_spanning_tree (w h px py : Z) (g : Rng) (depth : nat) :
  0 < w → 0 < h → 0 <= px < w → 0 <= py < h →
  ((Z.to_nat w * Z.to_nat h <= depth)%nat →
     ∃ st', populateFrom depth px py (Maze_init w h, g) = (Ok true, st')) ∧
  ∀ st', populateFrom depth px py (Maze_init w h, g) = (Ok true, st') →
    (∀ qx qy, 0 <= qx < w → 0 <= qy < h →
       ∃ c, cell_at (fst st') qx qy = Some c ∧ empty c = false) ∧
    (n_broken (fst st') + 1)%nat = n_cells (fst st') ∧
    connected (populated (fst st')) (passage (fst st')) ∧
    acyclic (passage (fst st')).
Proof.
  intros Hw Hh Hx Hy.
  assert (Hin : in_bounds (fst (Maze_init w h, g)) px py) by done.
  assert (Hex : cellExists (fst (Maze_init w h, g)) px py = false) by done.
  destruct (populateFrom_in depth px py (Maze_init w h, g) (wf_init w h) Hex Hin)
    as (m1 & r & st1 & Hcr & Hrun & Hpop & Hwf1 & Hs1 & Hsteps & Hr & Hcl & Hterm).
  split.
  - intros Hd. exists st1. rewrite Hpop, Hterm; [done|].
    unfold free. etrans; [apply length_filter|]. by rewrite length_box.
  - intros st' Hok. rewrite Hpop in Hok.
    destruct Hr as [-> | ->]; [|done]. injection Hok as <-.
    destruct (Hcl eq_refl) as [Hnew Hseed].
    pose proof (carves_wf _ _ Hwf1 Hsteps) as Hwf'.
    destruct (carves_bounds _ _ Hwf1 Hsteps) as [Hw' Hh'].
    destruct (createCell_in _ _ _ Hin) as (m' & Hcr' & Hw1 & Hh1 & _ & _ & _ & _ & Hat).
    simpl in Hcr, Hcr'. rewrite Hcr in Hcr'. injection Hcr' as <-.
    destruct (spanning_tree_carves _ _ Hwf1 Hsteps (spanning_tree_seed _ _ _ _ _ Hcr))
      as (Hcon & Hac & Hcount).
    split_and!; try done.
    intros qx qy Hqx Hqy.
    assert (is_Some (cell_at (fst st1) qx qy)) as [c Hc].
    { apply (closed_all (fst st1) px py).
      - unfold in_bounds. rewrite Hw', Hh', Hw1, Hh1. done.
      - exact (carves_mono _ _ _ _ Hwf1 Hsteps Hs1).
      - intros ax ay Ha. destruct (cell_at m1 ax ay) eqn:H1; [|by apply Hnew].
        rewrite Hat in H1. case_decide as Heq; [|done].
        by destruct Heq as [-> ->].
      - unfold in_bounds. rewrite Hw', Hh', Hw1, Hh1. done. }
    exists c. split; [done|]. by destruct (wf_key _ Hwf' _ _ _ Hc) as (_ & _ & ?).
Qed.

(** The 2 x 2 maze seeded at (0, 0) meets the hypotheses of C1. *)
Lemma populateFrom_spanning_tree_witness :
  (0 < 2 ∧ 0 < 2 ∧ 0 <= 0 < 2 ∧ 0 <= 0 < 2) ∧
  (((Z.to_nat 2 * Z.to_nat 2 <= 4)%nat →
     ∃ st', populateFrom 4 0 0 (Maze_init 2 2, rng0) = (Ok true, st')) ∧
   ∀ st', populateFrom 4 0 0 (Maze_init 2 2, rng0) = (Ok true, st') →
    (∀ qx qy, 0 <= qx < 2 → 0 <= qy < 2 →
       ∃ c, cell_at (fst st') qx qy = Some c ∧ empty c = false) ∧
    (n_broken (fst st') + 1)%nat = n_cells (fst st') ∧
    connected (populated (fst st')) (passage (fst st')) ∧
    acyclic (passage (fst st'))).
Proof.
  split; [lia|]. apply (populateFrom_spanning_tree 2 2 0 0 rng0 4); lia.
Defined.

(** The run behind the witness. *)
Example populateFrom_2x2 :
  fst (populateFrom 4 0 0 (Maze_init 2 2, rng0)) = Ok true ∧
  Maze_str (fst (snd (populateFrom 4 0 0 (Maze_init 2 2, rng0)))) =
    Ok ("  ____" +:+ newline +:+ " |__ |" +:+ newline +:+ " |___|" +:+ newline)%string.
Proof. vm_compute. done. Qed.

(** With the lookup spelled [getCell], the left wall of a cell whose
    left neighbour is stored would be that neighbour's right wall, and
    likewise for the wall above. *)
Lemma getCell_stored (st : State) (px py : Z) :
  reachable st → cellExists (fst st) px py = true →
  getCell (fst st) px py = Stored px py.
Proof.
  intros Hwf%reachable_wf [c Hc]%cellExists_spec.
  destruct (wf_in _ Hwf _ _ _ Hc) as [Hx Hy].
  unfold getCell. rewrite !bool_decide_eq_false_2 by lia. simpl.
  unfold cell_at in Hc. destruct (cellrows (fst st) !! py); [|done]. by rewrite Hc.
Qed.

Lemma wall_symmetry_intended (st : State) (px py : Z) :
  reachable st → cellExists (fst st) px py = true →
  hasWallRight (fst st) (getCell (fst st) (px + 1 - 1) py) =
    hasWallRight (fst st) (Stored px py) ∧
  hasWallBelow (fst st) (getCell (fst st) px (py + 1 - 1)) =
    hasWallBelow (fst st) (Stored px py).
Proof.
  intros Hr Hex. replace (px + 1 - 1) with px by lia.
  replace (py + 1 - 1) with py by lia. by rewrite getCell_stored.
Qed.

(** C2.  [hasWallLeft] and [hasWallAbove] look up the attribute
    [getcell] on the maze, which does not define it: on two adjacent
    real cells the right wall of the left one is read as [True] while
    asking the right one for its left wall raises [AttributeError];
    the same holds for the cell below and its wall above. *)
Theorem wall_symmetry_raises :
  let m := snd (createCell (snd (createCell
             (snd (createCell (Maze_init 2 2) 0 0)) 1 0)) 0 1) in
  cellExists m 0 0 = true ∧ cellExists m 1 0 = true ∧ cellExists m 0 1 = true ∧
  hasWallRight m (Stored 0 0) = Ok true ∧
  hasWallLeft m (Stored 1 0) = Raise AttributeError ∧
  hasWallBelow m (Stored 0 0) = Ok true ∧
  hasWallAbove m (Stored 0 1) = Raise AttributeError.
Proof. vm_compute. done. Qed.

(** C3.  On every maze and every cell, [hasWallLeft] and
    [hasWallAbove] raise [AttributeError]: the lookup is spelled
    [getcell], the method is [getCell]. *)
Theorem hasWallLeft_raises (m : Maze) (r : CellRef) :
  Maze_lookup_method "getcell" = None ∧
  hasWallLeft m r = Raise AttributeError ∧
  hasWallAbove m r = Raise AttributeError.
Proof. done. Qed.

(** C4.  On every maze and every cell, [breakWallLeft] and
    [breakWallAbove] raise [AttributeError] and change nothing;
    [breakWallAbove] would moreover call [breakWallAbove], not
    [breakWallBelow], on the cell above. *)
Theorem breakWallLeft_raises (m : Maze) (r : CellRef) (d : nat) :
  breakWallLeft m r = (Raise AttributeError, m) ∧
  breakWallAbove (S d) m r = (Raise AttributeError, m).
Proof. done. Qed.

(** C5.  In every reachable state: outside the bounds [createCell]
    returns [None] and changes nothing; inside the bounds on a free
    position it stores and returns a new real cell with both walls,
    leaves the other cells alone and widens the bounding box to hold
    the position; on a stored position it returns that cell and
    changes nothing; a second call returns what the first returned and
    changes nothing. *)
Theorem createCell_spec (st : State) (px py : Z) :
  reachable st →
  (¬ in_bounds (fst st) px py → createCell (fst st) px py = (None, fst st)) ∧
  (in_bounds (fst st) px py → cellExists (fst st) px py = false →
     ∃ m', createCell (fst st) px py = (Some (Stored px py), m') ∧
           deref m' (Stored px py) = Ok (mkCell px py false true true) ∧
           hasWallRight m' (Stored px py) = Ok true ∧
           hasWallBelow m' (Stored px py) = Ok true ∧
           (∀ qx qy, (qx, qy) ≠ (px, py) → cell_at m' qx qy = cell_at (fst st) qx qy) ∧
           max_width m' = max_width (fst st) ∧ max_height m' = max_height (fst st) ∧
           min_x m' = Some (lower (min_x (fst st)) px) ∧
           min_y m' = Some (lower (min_y (fst st)) py) ∧
           max_x m' = Some (upper (max_x (fst st)) px) ∧
           max_y m' = Some (upper (max_y (fst st)) py)) ∧
  (cellExists (fst st) px py = true →
     createCell (fst st) px py = (Some (Stored px py), fst st)) ∧
  createCell (snd (createCell (fst st) px py)) px py = createCell (fst st) px py.
Proof.
  intros Hwf%reachable_wf. split_and!.
  - apply createCell_out.
  - intros Hin Hex%cellExists_false.
    destruct (createCell_in _ _ _ Hin)
      as (m' & Hcr & Hw & Hh & Hmx & Hmy & HMx & HMy & Hat).
    rewrite Hex in Hat. simpl in Hat.
    exists m'. unfold hasWallRight, hasWallBelow, deref.
    rewrite Hat, decide_True by done. split_and!; try done.
    intros qx qy Hne. rewrite Hat, decide_False; [done|]. intros [-> ->]. done.
  - intros [c Hc]%cellExists_spec. by eapply createCell_existing.
  - destruct (decide (in_bounds (fst st) px py)) as [Hin|Hout].
    2:{ rewrite (createCell_out (fst st)) by done. simpl.
        by rewrite createCell_out. }
    destruct (createCell_in _ _ _ Hin) as (m' & Hcr & _ & _ & _ & _ & _ & _ & Hat).
    pose proof (wf_createCell _ px py Hwf) as Hwf'. rewrite Hcr in *. simpl in *.
    eapply createCell_existing; [done|]. rewrite Hat. by rewrite decide_True.
Qed.

(** The fresh 2 x 2 maze is reachable: creating (1, 1) twice. *)
Lemma createCell_spec_witness :
  reachable (Maze_init 2 2, rng0) ∧
  createCell (snd (createCell (Maze_init 2 2) 1 1)) 1 1 =
    createCell (Maze_init 2 2) 1 1.
Proof.
  split; [apply reach_init|].
  apply (createCell_spec (Maze_init 2 2, rng0) 1 1). apply reach_init.
Defined.

(** C6, as stated, fails: with no cell at the seed, [populateFrom]
    raises [AttributeError] when the seed lies outside the bounds
    ([createCell] returns [None], whose attribute [x] is read), and
    [RecursionError] when the carving nests deeper than the interpreter
    allows. *)
Lemma populateFrom_not_always_true :
  (cellExists (Maze_init 1 1) 3 3 = false ∧
   populateFrom 5 3 3 (Maze_init 1 1, rng0) =
     (Raise AttributeError, (Maze_init 1 1, rng0))) ∧
  (cellExists (Maze_init 2 1) 0 0 = false ∧
   fst (populateFrom 1 0 0 (Maze_init 2 1, rng0)) = Raise RecursionError).
Proof. vm_compute. done. Qed.

(** C6, amended.  In every reachable state: if a cell is stored at the
    seed, [populateFrom] returns [False] and changes nothing; if not,
    the seed lies inside the bounds and the interpreter allows as many
    nested calls as there are free positions, it creates the seed
    cell, runs the carving on it and returns [True]. *)
Theorem populateFrom_spec (st : State) (depth : nat) (px py : Z) :
  reachable st →
  (cellExists (fst st) px py = true →
     populateFrom depth px py st = (Ok false, st)) ∧
  (cellExists (fst st) px py = false → in_bounds (fst st) px py →
   (free (fst st) <= depth)%nat →
     ∃ m1 st', createCell (fst st) px py = (Some (Stored px py), m1) ∧
               cellExists m1 px py = true ∧
               _recursivePopulate depth (Some (Stored px py)) (m1, snd st) = (Ok tt, st') ∧
               populateFrom depth px py st = (Ok true, st')).
Proof.
  intros Hwf%reachable_wf. split; [apply populateFrom_stored|].
  intros Hex Hin Hd.
  destruct (populateFrom_in depth px py st Hwf Hex Hin)
    as (m1 & r & st' & Hcr & Hrun & Hpop & _ & Hs & _ & _ & _ & Hterm).
  rewrite (Hterm Hd) in *. exists m1, st'. split_and!; try done.
  by apply cellExists_spec.
Qed.

(** The fresh 2 x 2 maze, seed (0, 0) and four nested calls meet the
    hypotheses of the amended C6. *)
Lemma populateFrom_spec_witness :
  reachable (Maze_init 2 2, rng0) ∧
  cellExists (Maze_init 2 2) 0 0 = false ∧ in_bounds (Maze_init 2 2) 0 0 ∧
  (free (Maze_init 2 2) <= 4)%nat ∧
  ∃ m1 st', createCell (Maze_init 2 2) 0 0 = (Some (Stored 0 0), m1) ∧
            cellExists m1 0 0 = true ∧
            _recursivePopulate 4 (Some (Stored 0 0)) (m1, rng0) = (Ok tt, st') ∧
            populateFrom 4 0 0 (Maze_init 2 2, rng0) = (Ok true, st').
Proof.
  assert (Hr : reachable (Maze_init 2 2, rng0)) by apply reach_init.
  assert (Hin : in_bounds (Maze_init 2 2) 0 0) by (unfold in_bounds; simpl; lia).
  assert (Hf : (free (Maze_init 2 2) <= 4)%nat) by (vm_compute; lia).
  split_and!; try done.
  exact (proj2 (populateFrom_spec (Maze_init 2 2, rng0) 4 0 0 Hr) eq_refl Hin Hf).
Defined.

(** C7.  In every reachable state, a stored cell in the last column
    of the bounding box has its right wall, one in the last row its
    wall below, and for a stored cell in the first column or row the
    transient cell one step further out reports the wall between
    them. *)
Theorem boundary_walls_present (st : State) (px py : Z) :
  reachable st → cellExists (fst st) px py = true →
  (max_x (fst st) = Some px → hasWallRight (fst st) (getCell (fst st) px py) = Ok true) ∧
  (max_y (fst st) = Some py → hasWallBelow (fst st) (getCell (fst st) px py) = Ok true) ∧
  (min_x (fst st) = Some px →
     hasWallRight (fst st) (getCell (fst st) (px - 1) py) = Ok true) ∧
  (min_y (fst st) = Some py →
     hasWallBelow (fst st) (getCell (fst st) px (py - 1)) = Ok true).
Proof.
  intros Hwf%reachable_wf Hex. set (m := fst st) in *.
  pose proof Hex as [c Hc]%cellExists_spec.
  destruct (wf_in _ Hwf _ _ _ Hc) as [Hx Hy].
  assert (Hget : getCell m px py = Stored px py).
  { unfold getCell. rewrite !bool_decide_eq_false_2 by lia. simpl.
    unfold cell_at in Hc. destruct (cellrows m !! py); [|done]. by rewrite Hc. }
  assert (Hfar : ∀ qx qy, cell_at m qx qy = None →
            getCell m qx qy = Transient (Cell_init m qx qy true)).
  { intros qx qy Hn. unfold getCell. unfold cell_at in Hn.
    repeat case_match; simplify_eq; done. }
  split_and!.
  - intros HM. rewrite Hget. unfold hasWallRight. simpl. rewrite Hc. f_equal.
    destruct (wall_right c) eqn:Hwr; [done|].
    destruct (wf_right _ Hwf _ _ _ Hc Hwr) as [c' Hc'].
    destruct (wf_box _ Hwf _ _ _ Hc') as (? & ? & ? & ? & ? & ? & ? & ? & ? & ?).
    simplify_eq. lia.
  - intros HM. rewrite Hget. unfold hasWallBelow. simpl. rewrite Hc. f_equal.
    destruct (wall_below c) eqn:Hwb; [done|].
    destruct (wf_below _ Hwf _ _ _ Hc Hwb) as [c' Hc'].
    destruct (wf_box _ Hwf _ _ _ Hc') as (? & ? & ? & ? & ? & ? & ? & ? & ? & ?).
    simplify_eq. lia.
  - intros Hm. rewrite Hfar.
    + unfold hasWallRight. simpl. replace (px - 1 + 1) with px by lia. by rewrite Hex.
    + destruct (cell_at m (px - 1) py) as [c'|] eqn:Hc'; [|done].
      destruct (wf_box _ Hwf _ _ _ Hc') as (? & ? & ? & ? & ? & ? & ? & ? & ? & ?).
      simplify_eq. lia.
  - intros Hm. rewrite Hfar.
    + unfold hasWallBelow. simpl. replace (py - 1 + 1) with py by lia. by rewrite Hex.
    + destruct (cell_at m px (py - 1)) as [c'|] eqn:Hc'; [|done].
      destruct (wf_box _ Hwf _ _ _ Hc') as (? & ? & ? & ? & ? & ? & ? & ? & ? & ?).
      simplify_eq. lia.
Qed.

(** The cell (1, 1) of the generated 2 x 2 maze lies in its last
    column. *)
Lemma boundary_walls_present_witness :
  let st := snd (populateFrom 4 0 0 (Maze_init 2 2, rng0)) in
  reachable st ∧ cellExists (fst st) 1 1 = true ∧
  (max_x (fst st) = Some 1 → hasWallRight (fst st) (getCell (fst st) 1 1) = Ok true).
Proof.
  assert (Hr : reachable (snd (populateFrom 4 0 0 (Maze_init 2 2, rng0)))).
  { apply reach_populateFrom, reach_init. }
  split_and!; [exact Hr|reflexivity|].
  exact (proj1 (boundary_walls_present _ 1 1 Hr eq_refl)).
Defined.

Lemma for_dirs_single_cell rec dirs g :
  for_dirs rec (Stored 0 0) dirs (single_cell_maze, g) = (Ok tt, (single_cell_maze, g)).
Proof.
  induction dirs as [|d ds IH]; [done|].
  vm_compute in IH. destruct d; vm_compute; exact IH.
Qed.

(** C8, as stated, fails: the rendering of the 1 x 1 maze is not the
    fragment of its cell followed by a newline. *)
Lemma one_by_one_not_one_line :
  Maze_str (fst (snd (populateFrom 1 0 0 (Maze_init 1 1, rng0)))) ≠
    Ok ("_|" +:+ newline)%string.
Proof. vm_compute. discriminate. Qed.

(** C8, amended.  On the 1 x 1 maze [populateFrom(0, 0)] returns
    [True] and leaves exactly one cell, at (0, 0), with both walls and
    no wall broken; the cell renders as [_|] and the maze as two lines,
    the first for the row of transient cells above it, each line
    starting with the transient cell to the left. *)
Theorem one_by_one (g : Rng) (d : nat) :
  populateFrom (S d) 0 0 (Maze_init 1 1, g) =
    (Ok true, (single_cell_maze, mkRng (draw g) (S (pos g)))) ∧
  cells single_cell_maze = [mkCell 0 0 false true true] ∧
  hasWallRight single_cell_maze (Stored 0 0) = Ok true ∧
  hasWallBelow single_cell_maze (Stored 0 0) = Ok true ∧
  n_broken single_cell_maze = 0%nat ∧
  ref_str single_cell_maze (getCell single_cell_maze 0 0) = Ok "_|"%string ∧
  Maze_str single_cell_maze =
    Ok ("  __" +:+ newline +:+ " |_|" +:+ newline)%string.
Proof.
  split; [|by vm_compute].
  unfold populateFrom.
  change (cellExists (fst (Maze_init 1 1, g)) 0 0) with false.
  change (createCell (fst (Maze_init 1 1, g)) 0 0)
    with (Some (Stored 0 0), single_cell_maze).
  cbv iota beta. simpl _recursivePopulate.
  by rewrite for_dirs_single_cell.
Qed.

(** C9.  On a maze whose width or height is not positive,
    [createCell] returns [None] everywhere and the maze stays empty,
    but [populateFrom] raises [AttributeError] (it passes the [None]
    to [_recursivePopulate], which reads its attribute [x]) and
    rendering raises [TypeError]. *)
Theorem nonpositive_bounds_raise (w h px py : Z) (g : Rng) (d : nat) :
  w <= 0 ∨ h <= 0 →
  createCell (Maze_init w h) px py = (None, Maze_init w h) ∧
  populateFrom (S d) px py (Maze_init w h, g) =
    (Raise AttributeError, (Maze_init w h, g)) ∧
  Maze_str (Maze_init w h) = Raise TypeError.
Proof.
  intros Hwh.
  assert (Hout : ¬ in_bounds (Maze_init w h) px py).
  { unfold in_bounds. simpl. lia. }
  split_and!; [by apply createCell_out| |done].
  by rewrite populateFrom_out.
Qed.

(** The 0 x 0 maze. *)
Lemma nonpositive_bounds_raise_witness :
  (0 <= 0 ∨ 0 <= 0) ∧
  populateFrom 1000 0 0 (Maze_init 0 0, rng0) =
    (Raise AttributeError, (Maze_init 0 0, rng0)).
Proof.
  split; [lia|].
  apply (nonpositive_bounds_raise 0 0 0 0 rng0 999). lia.
Defined.




(** * Further properties of the code *)

(** ** Creation and lookup *)

(** X1.  On any maze, after [createCell(x, y)] a position holds a cell
    exactly when it held one before or it is [(x, y)] and lies inside
    the bounds. *)
Theorem cellExists_createCell (m : Maze) (px py qx qy : Z) :
  cellExists (snd (createCell m px py)) qx qy =
    cellExists m qx qy || bool_decide (in_bounds m px py ∧ qx = px ∧ qy = py).
Proof.
  destruct (decide (in_bounds m px py)) as [Hin|Hout].
  - destruct (createCell_in _ _ _ Hin) as (m' & -> & _ & _ & _ & _ & _ & _ & Hat).
    simpl. apply eq_true_iff_eq. rewrite orb_true_iff, bool_decide_eq_true.
    rewrite !cellExists_spec, Hat.
    destruct (decide (qx = px ∧ qy = py)) as [[-> ->]|Hne].
    + split; [intros _; by right|]. intros _. by eexists.
    + split; [by left|]. intros [?|?]; [done|tauto].
  - rewrite createCell_out by done. simpl.
    rewrite bool_decide_eq_false_2 by tauto. by rewrite orb_false_r.
Qed.

(** X2.  In every reachable state a stored cell lies inside the
    declared bounds, carries its own position and is not empty. *)
Theorem stored_cells_in_bounds (st : State) (px py : Z) (c : Cell) :
  reachable st → cell_at (fst st) px py = Some c →
  in_bounds (fst st) px py ∧ x c = px ∧ y c = py ∧ empty c = false.
Proof.
  intros Hwf%reachable_wf Hc. split; [by eapply wf_in|by eapply wf_key].
Qed.

Lemma stored_cells_in_bounds_witness :
  let st := (snd (createCell (Maze_init 3 2) 2 1), rng0) in
  reachable st ∧ cell_at (fst st) 2 1 = Some (mkCell 2 1 false true true) ∧
  in_bounds (fst st) 2 1.
Proof.
  assert (Hr : reachable (snd (createCell (Maze_init 3 2) 2 1), rng0)).
  { apply (reach_createCell (Maze_init 3 2, rng0)), reach_init. }
  split_and!; [exact Hr|reflexivity|].
  exact (proj1 (stored_cells_in_bounds _ 2 1 _ Hr eq_refl)).
Defined.

(** X3.  In every reachable state, also after a [createCell] that
    raised, the four entries of the bounding box are absent together
    or set together to a box that is not inverted and lies inside the
    declared bounds, and every stored cell lies in the box. *)
Theorem bounding_box_sound (st : State) :
  reachable st →
  box_ok (fst st) ∧
  ∀ px py, cellExists (fst st) px py = true →
    ∃ a b a' b', min_x (fst st) = Some a ∧ min_y (fst st) = Some b ∧
                 max_x (fst st) = Some a' ∧ max_y (fst st) = Some b' ∧
                 a <= px <= a' ∧ b <= py <= b'.
Proof.
  intros Hwf%reachable_wf. split; [by apply wf_frame|].
  intros px py [c Hc]%cellExists_spec. by eapply wf_box.
Qed.

Lemma bounding_box_sound_witness :
  let st := snd (populateFrom 6 1 0 (Maze_init 3 2, rng0)) in
  reachable st ∧ box_ok (fst st) ∧ max_x (fst st) = Some 2.
Proof.
  assert (Hr : reachable (snd (populateFrom 6 1 0 (Maze_init 3 2, rng0)))).
  { apply reach_populateFrom, reach_init. }
  split_and!; [exact Hr| |reflexivity].
  exact (proj1 (bounding_box_sound _ Hr)).
Defined.

(** X4.  In every reachable state [getCell] returns the stored cell
    exactly where [cellExists] holds, and elsewhere a transient cell
    whose wall below and wall to the right tell whether the cell below
    and the cell to the right exist; reading either wall of the result
    never raises. *)
Theorem getCell_spec (st : State) (px py : Z) :
  reachable st →
  getCell (fst st) px py =
    (if cellExists (fst st) px py then Stored px py
     else Transient (mkCell px py true (cellExists (fst st) px (py + 1))
                            (cellExists (fst st) (px + 1) py))) ∧
  (∃ b, hasWallRight (fst st) (getCell (fst st) px py) = Ok b) ∧
  (∃ b, hasWallBelow (fst st) (getCell (fst st) px py) = Ok b).
Proof.
  intros Hr. pose proof (reachable_wf _ Hr) as Hwf.
  assert (Hget : getCell (fst st) px py =
    if cellExists (fst st) px py then Stored px py
    else Transient (mkCell px py true (cellExists (fst st) px (py + 1))
                           (cellExists (fst st) (px + 1) py))).
  { destruct (cellExists (fst st) px py) eqn:Hex; [by apply getCell_stored|].
    apply cellExists_false in Hex. unfold getCell, cell_at in *.
    repeat case_match; simplify_eq; done. }
  split; [done|]. rewrite Hget. unfold hasWallRight, hasWallBelow.
  destruct (cellExists (fst st) px py) eqn:Hex; simpl; [|eauto].
  apply cellExists_spec in Hex as [c ->]. eauto.
Qed.

Lemma getCell_spec_witness :
  reachable (Maze_init 2 2, rng0) ∧
  getCell (Maze_init 2 2) 5 5 = Transient (mkCell 5 5 true false false).
Proof.
  assert (Hr : reachable (Maze_init 2 2, rng0)) by apply reach_init.
  split; [exact Hr|]. exact (proj1 (getCell_spec _ 5 5 Hr)).
Defined.

(** ** Breaking walls *)

(** X5.  In every reachable state, [breakWallRight] on a stored cell
    returns whether the wall was there; afterwards the cell has no
    right wall, its wall below, every other cell, the bounds and the
    bounding box are as before, and a second call returns [False] and
    changes nothing. *)
Theorem breakWallRight_spec (st : State) (px py : Z) :
  reachable st → cellExists (fst st) px py = true →
  ∃ b m', breakWallRight (fst st) (Stored px py) = (Ok b, m') ∧
    hasWallRight (fst st) (Stored px py) = Ok b ∧
    hasWallRight m' (Stored px py) = Ok false ∧
    hasWallBelow m' (Stored px py) = hasWallBelow (fst st) (Stored px py) ∧
    (∀ qx qy, (qx, qy) ≠ (px, py) → cell_at m' qx qy = cell_at (fst st) qx qy) ∧
    (∀ qx qy, cellExists m' qx qy = cellExists (fst st) qx qy) ∧
    max_width m' = max_width (fst st) ∧ max_height m' = max_height (fst st) ∧
    min_x m' = min_x (fst st) ∧ min_y m' = min_y (fst st) ∧
    max_x m' = max_x (fst st) ∧ max_y m' = max_y (fst st) ∧
    breakWallRight m' (Stored px py) = (Ok false, m').
Proof.
  intros Hwf%reachable_wf [c Hc]%cellExists_spec.
  destruct (wf_key _ Hwf _ _ _ Hc) as (_ & _ & He).
  unfold hasWallRight, hasWallBelow, breakWallRight. simpl. rewrite Hc, He. simpl.
  destruct (wall_right c) eqn:Hwr.
  - eexists _, _. split; [done|].
    destruct (put_cell_fields (fst st) px py (clear_right c))
      as (-> & -> & -> & -> & -> & ->).
    assert (Hat : ∀ qx qy, cell_at (put_cell (fst st) px py (clear_right c)) qx qy =
              if decide (qx = px ∧ qy = py) then Some (clear_right c)
              else cell_at (fst st) qx qy).
    { intros qx qy. apply cell_at_put_cell. by eexists. }
    rewrite Hat, decide_True by done. simpl. rewrite He. simpl.
    split_and!; try done.
    + intros qx qy Hne. rewrite Hat, decide_False; [done|]. by intros [-> ->].
    + intros qx qy. apply eq_true_iff_eq. rewrite !cellExists_spec, Hat.
      case_decide as Hq; [|done]. destruct Hq as [-> ->]. rewrite Hc.
      split; intros _; by eexists.
  - eexists _, _. split; [done|]. rewrite Hc, He, Hwr. by split_and!.
Qed.

Lemma breakWallRight_spec_witness :
  let st := (snd (createCell (Maze_init 2 2) 0 0), rng0) in
  reachable st ∧ cellExists (fst st) 0 0 = true ∧
  ∃ m', breakWallRight (fst st) (Stored 0 0) = (Ok true, m') ∧
        hasWallRight m' (Stored 0 0) = Ok false.
Proof.
  assert (Hr : reachable (snd (createCell (Maze_init 2 2) 0 0), rng0)).
  { apply (reach_createCell (Maze_init 2 2, rng0)), reach_init. }
  split_and!; [exact Hr|reflexivity|].
  destruct (breakWallRight_spec _ 0 0 Hr eq_refl)
    as (b & m' & Hb & Hw & Hw' & _).
  vm_compute in Hw. injection Hw as <-.
  exists m'. split; [exact Hb|exact Hw'].
Defined.

(** X6.  The same for [breakWallBelow] and the wall below. *)
Theorem breakWallBelow_spec (st : State) (px py : Z) :
  reachable st → cellExists (fst st) px py = true →
  ∃ b m', breakWallBelow (fst st) (Stored px py) = (Ok b, m') ∧
    hasWallBelow (fst st) (Stored px py) = Ok b ∧
    hasWallBelow m' (Stored px py) = Ok false ∧
    hasWallRight m' (Stored px py) = hasWallRight (fst st) (Stored px py) ∧
    (∀ qx qy, (qx, qy) ≠ (px, py) → cell_at m' qx qy = cell_at (fst st) qx qy) ∧
    (∀ qx qy, cellExists m' qx qy = cellExists (fst st) qx qy) ∧
    max_width m' = max_width (fst st) ∧ max_height m' = max_height (fst st) ∧
    min_x m' = min_x (fst st) ∧ min_y m' = min_y (fst st) ∧
    max_x m' = max_x (fst st) ∧ max_y m' = max_y (fst st) ∧
    breakWallBelow m' (Stored px py) = (Ok false, m').
Proof.
  intros Hwf%reachable_wf [c Hc]%cellExists_spec.
  destruct (wf_key _ Hwf _ _ _ Hc) as (_ & _ & He).
  unfold hasWallRight, hasWallBelow, breakWallBelow. simpl. rewrite Hc, He. simpl.
  destruct (wall_below c) eqn:Hwb.
  - eexists _, _. split; [done|].
    destruct (put_cell_fields (fst st) px py (clear_below c))
      as (-> & -> & -> & -> & -> & ->).
    assert (Hat : ∀ qx qy, cell_at (put_cell (fst st) px py (clear_below c)) qx qy =
              if decide (qx = px ∧ qy = py) then Some (clear_below c)
              else cell_at (fst st) qx qy).
    { intros qx qy. apply cell_at_put_cell. by eexists. }
    rewrite Hat, decide_True by done. simpl. rewrite He. simpl.
    split_and!; try done.
    + intros qx qy Hne. rewrite Hat, decide_False; [done|]. by intros [-> ->].
    + intros qx qy. apply eq_true_iff_eq. rewrite !cellExists_spec, Hat.
      case_decide as Hq; [|done]. destruct Hq as [-> ->]. rewrite Hc.
      split; intros _; by eexists.
  - eexists _, _. split; [done|]. rewrite Hc, He, Hwb. by split_and!.
Qed.

Lemma breakWallBelow_spec_witness :
  let st := (snd (createCell (Maze_init 2 2) 0 0), rng0) in
  reachable st ∧ cellExists (fst st) 0 0 = true ∧
  ∃ m', breakWallBelow (fst st) (Stored 0 0) = (Ok true, m') ∧
        hasWallBelow m' (Stored 0 0) = Ok false.
Proof.
  assert (Hr : reachable (snd (createCell (Maze_init 2 2) 0 0), rng0)).
  { apply (reach_createCell (Maze_init 2 2, rng0)), reach_init. }
  split_and!; [exact Hr|reflexivity|].
  destruct (breakWallBelow_spec _ 0 0 Hr eq_refl)
    as (b & m' & Hb & Hw & Hw' & _).
  vm_compute in Hw. injection Hw as <-.
  exists m'. split; [exact Hb|exact Hw'].
Defined.

(** X7.  On any maze, the cell [getCell] returns for a position that
    holds none is transient: breaking its right wall or its wall
    below returns [False] and changes nothing. *)
Theorem transient_walls_stay (m : Maze) (px py : Z) :
  cellExists m px py = false →
  breakWallRight m (getCell m px py) = (Ok false, m) ∧
  breakWallBelow m (getCell m px py) = (Ok false, m).
Proof.
  intros Hex%cellExists_false.
  assert (getCell m px py = Transient (Cell_init m px py true)) as ->.
  { unfold getCell, cell_at in *. repeat case_match; simplify_eq; done. }
  done.
Qed.

Lemma transient_walls_stay_witness :
  let m := snd (createCell (Maze_init 2 1) 1 0) in
  cellExists m 0 0 = false ∧
  hasWallRight m (getCell m 0 0) = Ok true ∧
  breakWallRight m (getCell m 0 0) = (Ok false, m).
Proof.
  split_and!; [reflexivity|reflexivity|].
  exact (proj1 (transient_walls_stay (snd (createCell (Maze_init 2 1) 1 0)) 0 0 eq_refl)).
Defined.

(** X8.  In every reachable state a broken wall has a stored cell on
    its other side, inside the bounds: the carving never opens a wall
    towards a free position or across the edge of the maze. *)
Theorem broken_wall_has_neighbour (st : State) (px py : Z) :
  reachable st →
  (hasWallRight (fst st) (Stored px py) = Ok false →
     cellExists (fst st) (px + 1) py = true ∧ px + 1 < max_width (fst st)) ∧
  (hasWallBelow (fst st) (Stored px py) = Ok false →
     cellExists (fst st) px (py + 1) = true ∧ py + 1 < max_height (fst st)).
Proof.
  intros Hwf%reachable_wf. split.
  - intros (c & Hc & Hw)%open_right_spec.
    destruct (wf_right _ Hwf _ _ _ Hc Hw) as [c' Hc'].
    split; [apply cellExists_spec; by eexists|].
    destruct (wf_in _ Hwf _ _ _ Hc'). lia.
  - intros (c & Hc & Hw)%open_below_spec.
    destruct (wf_below _ Hwf _ _ _ Hc Hw) as [c' Hc'].
    split; [apply cellExists_spec; by eexists|].
    destruct (wf_in _ Hwf _ _ _ Hc'). lia.
Qed.

Lemma broken_wall_has_neighbour_witness :
  let st := snd (populateFrom 2 0 0 (Maze_init 2 1, rng0)) in
  reachable st ∧ hasWallRight (fst st) (Stored 0 0) = Ok false ∧
  cellExists (fst st) 1 0 = true.
Proof.
  assert (Hr : reachable (snd (populateFrom 2 0 0 (Maze_init 2 1, rng0)))).
  { apply reach_populateFrom, reach_init. }
  split_and!; [exact Hr|reflexivity|].
  exact (proj1 (proj1 (broken_wall_has_neighbour _ 0 0 Hr) eq_refl)).
Defined.

(** ** Rendering *)

Lemma append_assoc (s1 s2 s3 : string) :
  ((s1 +:+ s2) +:+ s3 = s1 +:+ (s2 +:+ s3))%string.
Proof.
  induction s1 as [|a s1 IH]; [done|].
  change (String a ((s1 +:+ s2) +:+ s3) = String a (s1 +:+ (s2 +:+ s3)))%string.
  by rewrite IH.
Qed.

Lemma append_empty_r (s : string) : (s +:+ "")%string = s.
Proof.
  induction s as [|a s IH]; [done|].
  change (String a (s +:+ "") = String a s)%string. by rewrite IH.
Qed.

Lemma length_append (s1 s2 : string) :
  String.length (s1 +:+ s2) = (String.length s1 + String.length s2)%nat.
Proof.
  induction s1 as [|a s1 IH]; [done|].
  change (S (String.length (s1 +:+ s2)) = S (String.length s1 + String.length s2)).
  by rewrite IH.
Qed.

Lemma length_concat_str {A} (f : A → string) (k : nat) (l : list A) :
  (∀ a, String.length (f a) = k) →
  String.length (concat_str (f <$> l)) = (length l * k)%nat.
Proof.
  intros Hk. induction l as [|a l IH]; [done|].
  change (String.length (f a +:+ concat_str (f <$> l)) = (S (length l) * k)%nat).
  rewrite length_append, Hk, IH. lia.
Qed.

Lemma Cell_str_length (c : Cell) : String.length (Cell_str c) = 2%nat.
Proof. unfold Cell_str. by destruct (wall_below c), (wall_right c). Qed.

Lemma ref_str_shown (m : Maze) (col row : Z) :
  ref_str m (getCell m col row) = Ok (Cell_str (shown m col row)).
Proof.
  unfold getCell, shown, ref_str, deref, cell_at, in_bounds.
  repeat case_bool_decide; simpl; try (rewrite decide_False by lia; done).
  rewrite decide_True by lia.
  destruct (cellrows m !! row) as [r|] eqn:Hrow; [|done].
  destruct (r !! col) eqn:Hc; simpl; rewrite ?Hrow, ?Hc; done.
Qed.

Lemma str_cols_render (m : Maze) (row : Z) (cols : list Z) (ret : string) :
  str_cols m row cols ret =
    Ok (ret +:+ concat_str ((λ col, Cell_str (shown m col row)) <$> cols))%string.
Proof.
  revert ret. induction cols as [|col cs IH]; intros ret; simpl.
  - by rewrite append_empty_r.
  - by rewrite ref_str_shown, IH, append_assoc.
Qed.

Lemma str_rows_render (m : Maze) (a a' : Z) (rows : list Z) (ret : string) :
  min_x m = Some a → max_x m = Some a' →
  str_rows m rows ret =
    Ok (ret +:+ render m rows (py_range (a - 1) (a' + 1)))%string.
Proof.
  intros Ha Ha'. revert ret. induction rows as [|row rs IH]; intros ret; simpl.
  - change (render m [] (py_range (a - 1) (a' + 1))) with ""%string.
    by rewrite append_empty_r.
  - rewrite Ha, Ha', str_cols_render, IH.
    change (render m (row :: rs) (py_range (a - 1) (a' + 1)))
      with (row_text m (py_range (a - 1) (a' + 1)) row +:+
            render m rs (py_range (a - 1) (a' + 1)))%string.
    unfold row_text. by rewrite !append_assoc.
Qed.

(** X9.  The fragment of a cell has two characters and tells its two
    walls apart: two cells render alike exactly when they agree on
    the wall below and on the right wall. *)
Theorem Cell_str_decodes (c1 c2 : Cell) :
  String.length (Cell_str c1) = 2%nat ∧
  (Cell_str c1 = Cell_str c2 ↔
     wall_below c1 = wall_below c2 ∧ wall_right c1 = wall_right c2).
Proof.
  split; [apply Cell_str_length|]. unfold Cell_str.
  destruct (wall_below c1), (wall_right c1), (wall_below c2), (wall_right c2);
    simpl; split; try done; intros [? ?]; done.
Qed.

(** X10.  On any maze whose bounding box is set, [Maze.__str__]
    returns, for each row from one above the box to its last row, the
    fragments of the cells [getCell] gives from one column left of the
    box to its last column, followed by a newline: stored cells inside
    the bounds where there are any, transient cells elsewhere. *)
Theorem Maze_str_render (m : Maze) (a b a' b' : Z) :
  min_x m = Some a → min_y m = Some b → max_x m = Some a' → max_y m = Some b' →
  Maze_str m = Ok (render m (py_range (b - 1) (b' + 1)) (py_range (a - 1) (a' + 1))).
Proof.
  intros Ha Hb Ha' Hb'. unfold Maze_str. rewrite Hb, Hb'.
  by rewrite (str_rows_render m a a').
Qed.

Lemma Maze_str_render_witness :
  Maze_str single_cell_maze =
    Ok (render single_cell_maze (py_range (0 - 1) (0 + 1)) (py_range (0 - 1) (0 + 1))).
Proof. exact (Maze_str_render single_cell_maze 0 0 0 0 eq_refl eq_refl eq_refl eq_refl). Defined.

Lemma glyphs_append (s1 s2 : string) :
  glyphs s1 → glyphs s2 → glyphs (s1 +:+ s2).
Proof.
  intros H1 H2. induction s1 as [|c s1 IH]; [done|].
  destruct H1 as [Hc H1]. change (glyphs (String c (s1 +:+ s2))).
  split; [done|by apply IH].
Qed.

Lemma glyphs_Cell_str (c : Cell) : glyphs (Cell_str c).
Proof.
  unfold Cell_str. destruct (wall_below c), (wall_right c); simpl; tauto.
Qed.

Lemma glyphs_row_body (m : Maze) (cols : list Z) (row : Z) :
  glyphs (row_body m cols row).
Proof.
  unfold row_body. induction cols as [|col cs IH]; [done|].
  change (glyphs (Cell_str (shown m col row) +:+
                  concat_str ((λ col, Cell_str (shown m col row)) <$> cs))).
  apply glyphs_append; [apply glyphs_Cell_str|done].
Qed.

(** X11.  On any maze whose bounding box is set, the rendering is a
    sequence of lines, each ended by a newline: there are
    [max_y - min_y + 2] of them (none when that is not positive), and
    each has [2 * (max_x - min_x + 2)] characters, all of them [_],
    [|] or blank. *)
Theorem Maze_str_lines (m : Maze) (a b a' b' : Z) :
  min_x m = Some a → min_y m = Some b → max_x m = Some a' → max_y m = Some b' →
  ∃ lines : list string,
    Maze_str m = Ok (concat_str ((λ l, l +:+ newline)%string <$> lines)) ∧
    length lines = Z.to_nat (b' - b + 2) ∧
    Forall (λ l, String.length l = (2 * Z.to_nat (a' - a + 2))%nat ∧ glyphs l) lines.
Proof.
  intros Ha Hb Ha' Hb'.
  exists (row_body m (py_range (a - 1) (a' + 1)) <$> py_range (b - 1) (b' + 1)).
  split_and!.
  - unfold Maze_str. rewrite Hb, Hb', (str_rows_render m a a') by done.
    rewrite <- list_fmap_compose. done.
  - rewrite length_fmap. unfold py_range. rewrite length_seqZ. f_equal. lia.
  - apply Forall_fmap, Forall_forall. intros row _. simpl.
    split; [|apply glyphs_row_body].
    unfold row_body.
    rewrite (length_concat_str _ 2%nat) by (intros col; apply Cell_str_length).
    unfold py_range. rewrite length_seqZ.
    replace (a' + 1 - (a - 1)) with (a' - a + 2) by lia. lia.
Qed.

Lemma Maze_str_lines_witness :
  ∃ lines : list string,
    Maze_str single_cell_maze =
      Ok (concat_str ((λ l, l +:+ newline)%string <$> lines)) ∧
    length lines = Z.to_nat (0 - 0 + 2) ∧
    Forall (λ l, String.length l = (2 * Z.to_nat (0 - 0 + 2))%nat ∧ glyphs l) lines.
Proof.
  exact (Maze_str_lines single_cell_maze 0 0 0 0 eq_refl eq_refl eq_refl eq_refl).
Defined.

(** ** The generated maze *)

Lemma NoDup_box (m : Maze) : NoDup (box m).
Proof.
  unfold box. apply NoDup_bind; [| |apply NoDup_seqZ].
  - intros x1 x2 [a b] _ _ H1 H2.
    apply list_elem_of_bind in H1 as (b1 & H1 & _).
    apply list_elem_of_bind in H2 as (b2 & H2 & _).
    apply list_elem_of_singleton in H1, H2. by simplify_eq.
  - intros a _. apply NoDup_bind; [| |apply NoDup_seqZ].
    + intros y1 y2 p _ _ H1 H2.
      apply list_elem_of_singleton in H1, H2. by simplify_eq.
    + intros b _. apply NoDup_singleton.
Qed.

(** When every position inside the bounds is populated there are as
    many cells as positions. *)
Lemma n_cells_full (m : Maze) :
  wf m → (∀ qx qy, in_bounds m qx qy → is_Some (cell_at m qx qy)) →
  n_cells m = length (box m).
Proof.
  intros Hwf Hfull. unfold n_cells.
  rewrite <- (length_fmap (λ c, (x c, y c)) (cells m)).
  apply Permutation_length, NoDup_Permutation; [|apply NoDup_box|].
  - apply NoDup_fmap_2_strong; [|by apply NoDup_cells].
    intros c1 c2 (x1 & y1 & H1)%elem_of_cells (x2 & y2 & H2)%elem_of_cells Heq.
    destruct (wf_key _ Hwf _ _ _ H1) as (? & ? & _).
    destruct (wf_key _ Hwf _ _ _ H2) as (? & ? & _).
    simplify_eq. congruence.
  - intros [a b]. rewrite elem_of_box, list_elem_of_fmap. split.
    + intros (c & Heq & (qx & qy & Hc)%elem_of_cells).
      destruct (wf_key _ Hwf _ _ _ Hc) as (? & ? & _). simplify_eq.
      by eapply wf_in.
    + intros Hin. destruct (Hfull a b Hin) as [c Hc]. exists c.
      destruct (wf_key _ Hwf _ _ _ Hc) as (? & ? & _).
      split; [by subst|]. apply elem_of_cells. eauto.
Qed.

(** The state after a successful generation on an empty maze. *)
Lemma populateFrom_fills (w h px py : Z) (g : Rng) (depth : nat) (st' : State) :
  in_bounds (Maze_init w h) px py →
  populateFrom depth px py (Maze_init w h, g) = (Ok true, st') →
  reachable st' ∧ wf (fst st') ∧
  max_width (fst st') = w ∧ max_height (fst st') = h ∧
  (∀ qx qy, in_bounds (fst st') qx qy → is_Some (cell_at (fst st') qx qy)) ∧
  spanning_tree (fst st').
Proof.
  intros Hin Hok.
  assert (Hreach : reachable st').
  { pose proof (reach_populateFrom _ depth px py (reach_init w h g)) as Hr.
    by rewrite Hok in Hr. }
  assert (Hex : cellExists (fst (Maze_init w h, g)) px py = false) by done.
  destruct (populateFrom_in depth px py (Maze_init w h, g) (wf_init w h) Hex Hin)
    as (m1 & r & st1 & Hcr & Hrun & Hpop & Hwf1 & Hs1 & Hsteps & Hr & Hcl & _).
  rewrite Hpop in Hok. destruct Hr as [-> | ->]; [|done]. injection Hok as <-.
  destruct (Hcl eq_refl) as [Hnew Hseed].
  pose proof (carves_wf _ _ Hwf1 Hsteps) as Hwf'.
  destruct (carves_bounds _ _ Hwf1 Hsteps) as [Hw' Hh'].
  destruct (createCell_in _ _ _ Hin) as (m' & Hcr' & Hw1 & Hh1 & _ & _ & _ & _ & Hat).
  simpl in Hcr, Hcr'. rewrite Hcr in Hcr'. injection Hcr' as <-.
  split_and!; try done.
  - by rewrite Hw', Hw1.
  - by rewrite Hh', Hh1.
  - intros qx qy Hq. apply (closed_all (fst st1) px py); try done.
    + unfold in_bounds. rewrite Hw', Hh', Hw1, Hh1. done.
    + exact (carves_mono _ _ _ _ Hwf1 Hsteps Hs1).
    + intros ax ay Ha. destruct (cell_at m1 ax ay) eqn:H1; [|by apply Hnew].
      rewrite Hat in H1. case_decide as Heq; [|done].
      by destruct Heq as [-> ->].
  - exact (spanning_tree_carves _ _ Hwf1 Hsteps (spanning_tree_seed _ _ _ _ _ Hcr)).
Qed.

(** X12.  After a successful [populateFrom] on an empty maze of
    positive size, seeded inside the bounds, there are width x height
    cells and one broken wall less, and the bounding box is the whole
    maze. *)
Theorem generated_maze_size (w h px py : Z) (g : Rng) (depth : nat) (st' : State) :
  0 <= px < w → 0 <= py < h →
  populateFrom depth px py (Maze_init w h, g) = (Ok true, st') →
  n_cells (fst st') = (Z.to_nat w * Z.to_nat h)%nat ∧
  (n_broken (fst st') + 1)%nat = (Z.to_nat w * Z.to_nat h)%nat ∧
  min_x (fst st') = Some 0 ∧ min_y (fst st') = Some 0 ∧
  max_x (fst st') = Some (w - 1) ∧ max_y (fst st') = Some (h - 1).
Proof.
  intros Hx Hy Hok.
  destruct (populateFrom_fills w h px py g depth st' (conj Hx Hy) Hok)
    as (_ & Hwf & Hw & Hh & Hfull & (_ & _ & Hcount)).
  assert (Hn : n_cells (fst st') = (Z.to_nat w * Z.to_nat h)%nat).
  { rewrite n_cells_full, length_box by done. by rewrite Hw, Hh. }
  destruct (Hfull 0 0) as [c0 Hc0]; [unfold in_bounds; lia|].
  destruct (Hfull (w - 1) (h - 1)) as [c1 Hc1]; [unfold in_bounds; lia|].
  destruct (wf_box _ Hwf _ _ _ Hc0) as (a & b & a' & b' & Ha & Hb & Ha' & Hb' & ? & ?).
  destruct (wf_box _ Hwf _ _ _ Hc1) as (? & ? & ? & ? & ? & ? & ? & ? & ? & ?).
  simplify_eq.
  destruct (wf_frame _ Hwf) as [(? & _)|(? & ? & ? & ? & ? & ? & ? & ? & Hframe)];
    [congruence|].
  simplify_eq.
  rewrite Ha, Hb, Ha', Hb'. split_and!; try done; try lia; f_equal; lia.
Qed.

Lemma generated_maze_size_witness :
  let st' := snd (populateFrom 6 1 0 (Maze_init 3 2, rng0)) in
  (0 <= 1 < 3 ∧ 0 <= 0 < 2) ∧
  populateFrom 6 1 0 (Maze_init 3 2, rng0) = (Ok true, st') ∧
  n_cells (fst st') = (Z.to_nat 3 * Z.to_nat 2)%nat.
Proof.
  assert (Hok : populateFrom 6 1 0 (Maze_init 3 2, rng0) =
                (Ok true, snd (populateFrom 6 1 0 (Maze_init 3 2, rng0))))
    by (vm_compute; reflexivity).
  split_and!; [lia..|exact Hok|].
  exact (proj1 (generated_maze_size 3 2 1 0 rng0 6 _ ltac:(lia) ltac:(lia) Hok)).
Defined.

(** X13.  The generated maze is complete: a further [populateFrom]
    at any position inside the bounds returns [False], a further
    [createCell] returns the stored cell there and [None] elsewhere,
    and neither changes anything. *)
Theorem generated_maze_complete
    (w h px py : Z) (g : Rng) (depth : nat) (st' : State) (qx qy : Z) (depth' : nat) :
  0 <= px < w → 0 <= py < h →
  populateFrom depth px py (Maze_init w h, g) = (Ok true, st') →
  (0 <= qx < w ∧ 0 <= qy < h →
     populateFrom depth' qx qy st' = (Ok false, st') ∧
     createCell (fst st') qx qy = (Some (Stored qx qy), fst st')) ∧
  (¬ (0 <= qx < w ∧ 0 <= qy < h) →
     createCell (fst st') qx qy = (None, fst st')).
Proof.
  intros Hx Hy Hok.
  destruct (populateFrom_fills w h px py g depth st' (conj Hx Hy) Hok)
    as (_ & Hwf & Hw & Hh & Hfull & _).
  split.
  - intros Hq. destruct (Hfull qx qy) as [c Hc].
    { unfold in_bounds. by rewrite Hw, Hh. }
    split; [|by eapply createCell_existing].
    apply populateFrom_stored, cellExists_spec. by eexists.
  - intros Hq. apply createCell_out. unfold in_bounds. by rewrite Hw, Hh.
Qed.

Lemma generated_maze_complete_witness :
  let st' := snd (populateFrom 6 1 0 (Maze_init 3 2, rng0)) in
  (0 <= 1 < 3 ∧ 0 <= 0 < 2) ∧
  populateFrom 6 1 0 (Maze_init 3 2, rng0) = (Ok true, st') ∧
  (0 <= 2 < 3 ∧ 0 <= 1 < 2) ∧
  populateFrom 0 2 1 st' = (Ok false, st').
Proof.
  assert (Hok : populateFrom 6 1 0 (Maze_init 3 2, rng0) =
                (Ok true, snd (populateFrom 6 1 0 (Maze_init 3 2, rng0))))
    by (vm_compute; reflexivity).
  split; [lia|]. split; [exact Hok|]. split; [lia|].
  exact (proj1 (proj1 (generated_maze_complete 3 2 1 0 rng0 6 _ 2 1 0
                         ltac:(lia) ltac:(lia) Hok) ltac:(lia))).
Defined.

(** ** What the operations keep *)

Lemma extends_refl (m : Maze) : extends m m.
Proof.
  unfold extends. split_and!; try done; intros v Hv; exists v; (split; [done|lia]).
Qed.

Lemma extends_trans (m1 m2 m3 : Maze) : extends m1 m2 → extends m2 m3 → extends m1 m3.
Proof.
  intros (Hw & Hh & Hc & Hr & Hb & Hmx & Hmy & HMx & HMy)
         (Hw' & Hh' & Hc' & Hr' & Hb' & Hmx' & Hmy' & HMx' & HMy').
  unfold extends. split_and!; try congruence; auto.
  - intros v Hv. destruct (Hmx v Hv) as (v1 & H1 & ?).
    destruct (Hmx' v1 H1) as (v2 & H2 & ?). exists v2. split; [done|lia].
  - intros v Hv. destruct (Hmy v Hv) as (v1 & H1 & ?).
    destruct (Hmy' v1 H1) as (v2 & H2 & ?). exists v2. split; [done|lia].
  - intros v Hv. destruct (HMx v Hv) as (v1 & H1 & ?).
    destruct (HMx' v1 H1) as (v2 & H2 & ?). exists v2. split; [done|lia].
  - intros v Hv. destruct (HMy v Hv) as (v1 & H1 & ?).
    destruct (HMy' v1 H1) as (v2 & H2 & ?). exists v2. split; [done|lia].
Qed.

Lemma createCell_extends (m : Maze) (px py : Z) : extends m (snd (createCell m px py)).
Proof.
  destruct (decide (in_bounds m px py)) as [Hin|Hout].
  2:{ rewrite createCell_out by done. apply extends_refl. }
  destruct (createCell_in _ _ _ Hin)
    as (m' & -> & Hw & Hh & Hmx & Hmy & HMx & HMy & Hat). simpl.
  assert (Hkeep : ∀ qx qy c, cell_at m qx qy = Some c → cell_at m' qx qy = Some c).
  { intros qx qy c Hc. rewrite Hat. case_decide as Hq; [|done].
    destruct Hq as [-> ->]. by rewrite Hc. }
  unfold extends. split_and!; try done.
  - intros qx qy [c Hc]%cellExists_spec. apply cellExists_spec. eauto.
  - intros qx qy (c & Hc & ?)%open_right_spec. apply open_right_spec. eauto.
  - intros qx qy (c & Hc & ?)%open_below_spec. apply open_below_spec. eauto.
  - intros v Hv. rewrite Hmx, Hv. eexists. split; [done|]. simpl. lia.
  - intros v Hv. rewrite Hmy, Hv. eexists. split; [done|]. simpl. lia.
  - intros v Hv. rewrite HMx, Hv. eexists. split; [done|]. simpl. lia.
  - intros v Hv. rewrite HMy, Hv. eexists. split; [done|]. simpl. lia.
Qed.

Lemma carve_step_extends (m m2 : Maze) : wf m → carve_step m m2 → extends m m2.
Proof.
  intros Hwf Hs.
  destruct (carve_step_carved _ _ Hwf Hs) as (px & py & c & d & tx & ty & Hcv).
  pose proof (λ qx qy, carved_stored _ _ _ _ _ _ _ _ qx qy Hcv) as Hst.
  pose proof (λ qx qy, open_right_carved _ _ _ _ _ _ _ _ qx qy Hwf Hcv) as Hor.
  pose proof (λ qx qy, open_below_carved _ _ _ _ _ _ _ _ qx qy Hwf Hcv) as Hob.
  destruct Hcv as (_ & _ & _ & _ & _ & _ & Hw & Hh & Hmx & Hmy & HMx & HMy & _).
  unfold extends. split_and!; try done.
  - intros qx qy ?%cellExists_spec. apply cellExists_spec, Hst. by left.
  - intros qx qy ?. apply Hor. by left.
  - intros qx qy ?. apply Hob. by left.
  - intros v Hv. rewrite Hmx, Hv. eexists. split; [done|]. simpl. lia.
  - intros v Hv. rewrite Hmy, Hv. eexists. split; [done|]. simpl. lia.
  - intros v Hv. rewrite HMx, Hv. eexists. split; [done|]. simpl. lia.
  - intros v Hv. rewrite HMy, Hv. eexists. split; [done|]. simpl. lia.
Qed.

Lemma carves_extends (m m2 : Maze) : wf m → rtc carve_step m m2 → extends m m2.
Proof.
  intros Hwf H. induction H as [|m m1 m2 Hs _ IH]; [apply extends_refl|].
  eapply extends_trans; [by apply carve_step_extends|].
  apply IH. by eapply carve_step_wf.
Qed.

(** X14.  In every reachable state, [createCell] and [populateFrom],
    whatever they return or raise, keep the declared bounds, every
    stored cell and every broken wall, and never shrink the bounding
    box: cells are not removed and walls are not rebuilt. *)
Theorem operations_extend (st : State) (depth : nat) (px py : Z) :
  reachable st →
  extends (fst st) (snd (createCell (fst st) px py)) ∧
  extends (fst st) (fst (snd (populateFrom depth px py st))).
Proof.
  intros Hwf%reachable_wf. split; [apply createCell_extends|].
  destruct (cellExists (fst st) px py) eqn:Hex.
  { rewrite populateFrom_stored by done. apply extends_refl. }
  destruct (decide (in_bounds (fst st) px py)) as [Hin|Hout].
  2:{ rewrite populateFrom_out by done. apply extends_refl. }
  destruct (populateFrom_in depth px py st Hwf Hex Hin)
    as (m1 & r & st' & Hcr & _ & -> & Hwf1 & _ & Hsteps & _).
  simpl. eapply extends_trans; [|by apply carves_extends].
  pose proof (createCell_extends (fst st) px py) as He. by rewrite Hcr in He.
Qed.

Lemma operations_extend_witness :
  let st := (snd (createCell (Maze_init 3 2) 2 1), rng0) in
  reachable st ∧
  cellExists (fst (snd (populateFrom 1 0 0 st))) 2 1 = true.
Proof.
  assert (Hr : reachable (snd (createCell (Maze_init 3 2) 2 1), rng0)).
  { apply (reach_createCell (Maze_init 3 2, rng0)), reach_init. }
  split; [exact Hr|].
  destruct (proj2 (operations_extend _ 1 0 0 Hr)) as (_ & _ & Hc & _).
  exact (Hc 2 1 eq_refl).
Defined.

(** X15.  In every reachable state [populateFrom] has these outcomes
    and no other.  On a stored seed it returns [False] and changes
    nothing.  On a free seed outside the bounds it raises
    [AttributeError] and changes nothing, as soon as one nested call
    is allowed.  On a free seed inside the bounds it returns [True],
    with the seed stored, or raises [RecursionError], and that only
    when fewer nested calls are allowed than there are free
    positions. *)
Theorem populateFrom_outcomes (st : State) (depth : nat) (px py : Z) :
  reachable st →
  (cellExists (fst st) px py = true →
     populateFrom depth px py st = (Ok false, st)) ∧
  (cellExists (fst st) px py = false → ¬ in_bounds (fst st) px py →
   depth ≠ 0%nat →
     populateFrom depth px py st = (Raise AttributeError, st)) ∧
  (cellExists (fst st) px py = false → in_bounds (fst st) px py →
     (fst (populateFrom depth px py st) = Ok true ∧
      cellExists (fst (snd (populateFrom depth px py st))) px py = true) ∨
     (fst (populateFrom depth px py st) = Raise RecursionError ∧
      (depth < free (fst st))%nat)).
Proof.
  intros Hwf%reachable_wf. split_and!.
  - apply populateFrom_stored.
  - intros Hex Hout Hd. rewrite populateFrom_out by done. by destruct depth.
  - intros Hex Hin.
    destruct (populateFrom_in depth px py st Hwf Hex Hin)
      as (m1 & r & st' & _ & _ & -> & Hwf1 & Hs & Hsteps & Hr & _ & Hterm).
    simpl. destruct Hr as [-> | ->]; [left|right].
    + split; [done|]. apply cellExists_spec.
      exact (carves_mono _ _ _ _ Hwf1 Hsteps Hs).
    + split; [done|].
      destruct (decide (free (fst st) <= depth)%nat) as [Hle|]; [|lia].
      by specialize (Hterm Hle).
Qed.

Lemma populateFrom_outcomes_witness :
  reachable (Maze_init 2 1, rng0) ∧
  cellExists (Maze_init 2 1) 5 0 = false ∧ ¬ in_bounds (Maze_init 2 1) 5 0 ∧
  3%nat ≠ 0%nat ∧
  populateFrom 3 5 0 (Maze_init 2 1, rng0) =
    (Raise AttributeError, (Maze_init 2 1, rng0)).
Proof.
  assert (Hr : reachable (Maze_init 2 1, rng0)) by apply reach_init.
  assert (Hout : ¬ in_bounds (Maze_init 2 1) 5 0) by (unfold in_bounds; simpl; lia).
  assert (Hd : 3%nat ≠ 0%nat) by lia.
  split_and!; [exact Hr|reflexivity|exact Hout|exact Hd|].
  exact (proj1 (proj2 (populateFrom_outcomes _ 3 5 0 Hr)) eq_refl Hout Hd).
Defined.

(** X16.  In every reachable state, after [populateFrom] returns
    [True] the seed and every cell the call created have all their
    neighbours inside the bounds populated: the carving stops only
    where nothing is left to enter. *)
Theorem populateFrom_closes (st : State) (depth : nat) (px py : Z) (st' : State) :
  reachable st →
  populateFrom depth px py st = (Ok true, st') →
  closed (fst st') px py ∧
  ∀ qx qy, cellExists (fst st) qx qy = false → cellExists (fst st') qx qy = true →
           closed (fst st') qx qy.
Proof.
  intros Hwf%reachable_wf Hok.
  destruct (cellExists (fst st) px py) eqn:Hex.
  { by rewrite populateFrom_stored in Hok. }
  destruct (decide (in_bounds (fst st) px py)) as [Hin|Hout].
  2:{ by rewrite populateFrom_out in Hok. }
  destruct (populateFrom_in depth px py st Hwf Hex Hin)
    as (m1 & r & st1 & Hcr & _ & Hpop & _ & _ & _ & Hr & Hcl & _).
  rewrite Hpop in Hok. destruct Hr as [-> | ->]; [|done]. injection Hok as <-.
  destruct (Hcl eq_refl) as [Hnew Hseed]. split; [done|].
  intros qx qy Hq%cellExists_false Hq'%cellExists_spec.
  destruct (decide (qx = px ∧ qy = py)) as [[-> ->]|Hne]; [done|].
  apply Hnew; [|done].
  destruct (createCell_in _ _ _ Hin) as (m' & Hcr' & _ & _ & _ & _ & _ & _ & Hat).
  rewrite Hcr in Hcr'. injection Hcr' as <-. rewrite Hat. by rewrite decide_False.
Qed.

Lemma populateFrom_closes_witness :
  let st := (snd (createCell (Maze_init 3 1) 1 0), rng0) in
  let st' := snd (populateFrom 1 0 0 st) in
  reachable st ∧ populateFrom 1 0 0 st = (Ok true, st') ∧
  closed (fst st') 0 0 ∧ cellExists (fst st') 2 0 = false.
Proof.
  assert (Hr : reachable (snd (createCell (Maze_init 3 1) 1 0), rng0)).
  { apply (reach_createCell (Maze_init 3 1, rng0)), reach_init. }
  assert (Hok : populateFrom 1 0 0 (snd (createCell (Maze_init 3 1) 1 0), rng0) =
                (Ok true, snd (populateFrom 1 0 0
                                 (snd (createCell (Maze_init 3 1) 1 0), rng0))))
    by (vm_compute; reflexivity).
  split; [exact Hr|]. split; [exact Hok|]. split; [|reflexivity].
  exact (proj1 (populateFrom_closes _ 1 0 0 _ Hr Hok)).
Defined.

(** ** Random draws *)

Lemma n_cells_createCell (m : Maze) (px py : Z) (m1 : Maze) :
  wf m → in_bounds m px py → cell_at m px py = None →
  createCell m px py = (Some (Stored px py), m1) →
  n_cells m1 = S (n_cells m).
Proof.
  intros Hwf Hin Hn Hcr.
  pose proof (wf_createCell _ px py Hwf) as Hwf1. rewrite Hcr in Hwf1. simpl in Hwf1.
  destruct (createCell_in _ _ _ Hin) as (m' & Hcr' & _ & _ & _ & _ & _ & _ & Hat).
  rewrite Hcr in Hcr'. injection Hcr' as <-. rewrite Hn in Hat. simpl in Hat.
  unfold n_cells.
  assert (cells m1 ≡ₚ mkCell px py false true true :: cells m) as ->; [|done].
  apply NoDup_Permutation; [by apply NoDup_cells| |].
  - apply NoDup_cons. split; [|by apply NoDup_cells].
    intros (qx & qy & Hq)%elem_of_cells.
    destruct (wf_key _ Hwf _ _ _ Hq) as (? & ? & _). simpl in *. congruence.
  - intros c. rewrite elem_of_cons, !elem_of_cells. split.
    + intros (qx & qy & Hq). rewrite Hat in Hq.
      case_decide; [left; congruence|right; eauto].
    + intros [->|(qx & qy & Hq)].
      * exists px, py. rewrite Hat. by rewrite decide_True.
      * exists qx, qy. rewrite Hat. rewrite decide_False; [done|].
        intros [-> ->]. congruence.
Qed.

Lemma for_dirs_draws (n : nat) (rec : option CellRef → State → result unit * State) :
  call_ok n rec →
  (∀ px py st st', wf (fst st) → is_Some (cell_at (fst st) px py) →
     rec (Some (Stored px py)) st = (Ok tt, st') →
     draw (snd st') = draw (snd st) ∧
     (pos (snd st') + n_cells (fst st) = S (pos (snd st) + n_cells (fst st')))%nat) →
  ∀ dirs px py st st', wf (fst st) → is_Some (cell_at (fst st) px py) →
    for_dirs rec (Stored px py) dirs st = (Ok tt, st') →
    draw (snd st') = draw (snd st) ∧
    (pos (snd st') + n_cells (fst st) = pos (snd st) + n_cells (fst st'))%nat.
Proof.
  intros Hcall Hrec dirs px py.
  induction dirs as [|d ds IH]; intros [m g] st' Hwf Hpar Hrun; simpl fst in *;
    simpl snd in *.
  { simpl in Hrun. by injection Hrun as <-. }
  simpl for_dirs in Hrun. destruct (target (Stored px py) d) as [tx ty] eqn:Ht.
  simpl fst in Hrun. simpl snd in Hrun.
  destruct (cellExists m tx ty) eqn:Hex; [by apply (IH (m, g))|].
  apply cellExists_false in Hex.
  destruct (decide (in_bounds m tx ty)) as [Hin|Hout].
  2:{ rewrite createCell_out in Hrun by done. by apply (IH (m, g)). }
  destruct Hpar as [c Hc].
  destruct (carve_effect m px py c d tx ty Hwf Hc Ht Hex Hin)
    as (m1 & m2 & Hcr & Hcon & Hcv).
  rewrite Hcr, Hcon in Hrun.
  destruct (counts_carved _ _ _ _ _ _ _ _ Hwf Hcv) as [Hcount _].
  pose proof (carved_wf _ _ _ _ _ _ _ _ Hwf Hcv) as Hwf2.
  assert (Htgt : is_Some (cell_at m2 tx ty)).
  { apply (carved_stored _ _ _ _ _ _ _ _ _ _ Hcv). by right. }
  assert (Hpar2 : is_Some (cell_at m2 px py)).
  { apply (carved_stored _ _ _ _ _ _ _ _ _ _ Hcv). left. by eexists. }
  destruct (Hcall tx ty (m2, g) Hwf2 Htgt) as (r & [m3 g3] & Hrun3 & Hsteps & _).
  rewrite Hrun3 in Hrun. destruct r as [[]|e]; [|done].
  destruct (Hrec tx ty (m2, g) (m3, g3) Hwf2 Htgt Hrun3) as [Hd3 Hp3].
  simpl in *.
  destruct (IH (m3, g3) st' (carves_wf _ _ Hwf2 Hsteps)
              (carves_mono _ _ _ _ Hwf2 Hsteps Hpar2) Hrun) as [Hd Hp].
  simpl in *. split; [congruence|lia].
Qed.

Lemma _recursivePopulate_draws (n : nat) (px py : Z) (st st' : State) :
  wf (fst st) → is_Some (cell_at (fst st) px py) →
  _recursivePopulate n (Some (Stored px py)) st = (Ok tt, st') →
  draw (snd st') = draw (snd st) ∧
  (pos (snd st') + n_cells (fst st) = S (pos (snd st) + n_cells (fst st')))%nat.
Proof.
  revert px py st st'. induction n as [|n IH]; intros px py [m g] st' Hwf Hpar Hrun;
    [done|].
  simpl in Hrun.
  destruct (for_dirs_draws n _ (_recursivePopulate_ok n) IH _ px py
              (m, mkRng (draw g) (S (pos g))) st' Hwf Hpar Hrun) as [Hd Hp].
  simpl in *. split; [done|lia].
Qed.

(** X17.  In every reachable state, a [populateFrom] that returns
    [True] draws exactly one random order for each cell it creates,
    the seed included, and leaves the sequence of draws itself alone. *)
Theorem populateFrom_draws (st : State) (depth : nat) (px py : Z) (st' : State) :
  reachable st →
  populateFrom depth px py st = (Ok true, st') →
  draw (snd st') = draw (snd st) ∧
  (pos (snd st') + n_cells (fst st) = pos (snd st) + n_cells (fst st'))%nat.
Proof.
  intros Hwf%reachable_wf Hok.
  destruct (cellExists (fst st) px py) eqn:Hex.
  { by rewrite populateFrom_stored in Hok. }
  destruct (decide (in_bounds (fst st) px py)) as [Hin|Hout].
  2:{ by rewrite populateFrom_out in Hok. }
  destruct (populateFrom_in depth px py st Hwf Hex Hin)
    as (m1 & r & st1 & Hcr & Hrun & Hpop & Hwf1 & Hs1 & _ & Hr & _).
  rewrite Hpop in Hok. destruct Hr as [-> | ->]; [|done]. injection Hok as <-.
  apply cellExists_false in Hex.
  pose proof (n_cells_createCell _ _ _ _ Hwf Hin Hex Hcr) as Hn.
  destruct (_recursivePopulate_draws depth px py (m1, snd st) st1 Hwf1 Hs1 Hrun)
    as [Hd Hp].
  simpl in *. split; [done|lia].
Qed.

Lemma populateFrom_draws_witness :
  let st' := snd (populateFrom 6 1 0 (Maze_init 3 2, rng0)) in
  reachable (Maze_init 3 2, rng0) ∧
  populateFrom 6 1 0 (Maze_init 3 2, rng0) = (Ok true, st') ∧
  (pos (snd st') + n_cells (Maze_init 3 2) = pos rng0 + n_cells (fst st'))%nat.
Proof.
  assert (Hr : reachable (Maze_init 3 2, rng0)) by apply reach_init.
  assert (Hok : populateFrom 6 1 0 (Maze_init 3 2, rng0) =
                (Ok true, snd (populateFrom 6 1 0 (Maze_init 3 2, rng0))))
    by (vm_compute; reflexivity).
  split; [exact Hr|]. split; [exact Hok|].
  exact (proj2 (populateFrom_draws _ 6 1 0 _ Hr Hok)).
Defined.

(** ** The shape of the generated maze *)

Lemma cellExists_out (m : Maze) (px py : Z) :
  wf m → ¬ in_bounds m px py → cellExists m px py = false.
Proof.
  intros Hwf Hout. destruct (cellExists m px py) eqn:Hex; [|done].
  apply cellExists_spec in Hex as [c Hc]. destruct Hout. by eapply wf_in.
Qed.

(** X18.  The generated maze is drawn with a closed border: the
    transient cell at the corner above and left renders as two blanks,
    those above the first row as [__], those left of the first column
    as [ |], and every cell of the last column has its right wall and
    every cell of the last row its wall below. *)
Theorem generated_maze_border (w h px py : Z) (g : Rng) (depth : nat) (st' : State) :
  0 <= px < w → 0 <= py < h →
  populateFrom depth px py (Maze_init w h, g) = (Ok true, st') →
  Cell_str (shown (fst st') (-1) (-1)) = "  "%string ∧
  (∀ qx, 0 <= qx < w → Cell_str (shown (fst st') qx (-1)) = "__"%string) ∧
  (∀ qy, 0 <= qy < h → Cell_str (shown (fst st') (-1) qy) = " |"%string) ∧
  (∀ qy, 0 <= qy < h → wall_right (shown (fst st') (w - 1) qy) = true) ∧
  (∀ qx, 0 <= qx < w → wall_below (shown (fst st') qx (h - 1)) = true).
Proof.
  intros Hx Hy Hok.
  destruct (populateFrom_fills w h px py g depth st' (conj Hx Hy) Hok)
    as (_ & Hwf & Hw & Hh & Hfull & _).
  set (m := fst st') in *.
  assert (Hin : ∀ qx qy, 0 <= qx < w → 0 <= qy < h → cellExists m qx qy = true).
  { intros qx qy ? ?. apply cellExists_spec, Hfull. unfold in_bounds.
    by rewrite Hw, Hh. }
  assert (Hout : ∀ qx qy, ¬ (0 <= qx < w ∧ 0 <= qy < h) → cellExists m qx qy = false).
  { intros qx qy ?. apply cellExists_out; [done|]. unfold in_bounds.
    by rewrite Hw, Hh. }
  assert (Hsh : ∀ qx qy, ¬ (0 <= qx < w ∧ 0 <= qy < h) →
            shown m qx qy = Cell_init m qx qy true).
  { intros qx qy ?. unfold shown. rewrite decide_False; [done|].
    unfold in_bounds. by rewrite Hw, Hh. }
  split_and!.
  - rewrite Hsh by lia. unfold Cell_str. simpl.
    by rewrite !Hout by lia.
  - intros qx ?.
    assert (H1 : cellExists m qx (-1 + 1) = true) by (apply Hin; lia).
    assert (H2 : cellExists m (qx + 1) (-1) = false) by (apply Hout; lia).
    rewrite Hsh by lia. unfold Cell_str. simpl in *. by rewrite H1, H2.
  - intros qy ?.
    assert (H1 : cellExists m (-1) (qy + 1) = false) by (apply Hout; lia).
    assert (H2 : cellExists m (-1 + 1) qy = true) by (apply Hin; lia).
    rewrite Hsh by lia. unfold Cell_str. simpl in *. by rewrite H1, H2.
  - intros qy ?. unfold shown.
    destruct (Hfull (w - 1) qy) as [c Hc].
    { unfold in_bounds. rewrite Hw, Hh. lia. }
    rewrite decide_True, Hc by (unfold in_bounds; rewrite Hw, Hh; lia).
    destruct (wall_right c) eqn:Hwr; [done|].
    destruct (wf_right _ Hwf _ _ _ Hc Hwr) as [c' Hc'].
    destruct (wf_in _ Hwf _ _ _ Hc'). lia.
  - intros qx ?. unfold shown.
    destruct (Hfull qx (h - 1)) as [c Hc].
    { unfold in_bounds. rewrite Hw, Hh. lia. }
    rewrite decide_True, Hc by (unfold in_bounds; rewrite Hw, Hh; lia).
    destruct (wall_below c) eqn:Hwb; [done|].
    destruct (wf_below _ Hwf _ _ _ Hc Hwb) as [c' Hc'].
    destruct (wf_in _ Hwf _ _ _ Hc'). lia.
Qed.

Lemma generated_maze_border_witness :
  let st' := snd (populateFrom 6 1 0 (Maze_init 3 2, rng0)) in
  (0 <= 1 < 3 ∧ 0 <= 0 < 2) ∧
  populateFrom 6 1 0 (Maze_init 3 2, rng0) = (Ok true, st') ∧
  Cell_str (shown (fst st') (-1) (-1)) = "  "%string.
Proof.
  assert (Hok : populateFrom 6 1 0 (Maze_init 3 2, rng0) =
                (Ok true, snd (populateFrom 6 1 0 (Maze_init 3 2, rng0))))
    by (vm_compute; reflexivity).
  split; [lia|]. split; [exact Hok|].
  exact (proj1 (generated_maze_border 3 2 1 0 rng0 6 _ ltac:(lia) ltac:(lia) Hok)).
Defined.

(** A chain of steps from inside a set to outside it has a step from
    inside to outside. *)
Lemma rtc_crossing {A} (R : relation A) (S : A → Prop)
    `{∀ a, Decision (S a)} (a b : A) :
  rtc R a b → S a → ¬ S b → ∃ c d, R c d ∧ S c ∧ ¬ S d.
Proof.
  intros Hab. induction Hab as [a|a c b Hac _ IH]; intros Ha Hb; [done|].
  destruct (decide (S c)) as [Hc|Hc]; [by apply IH|]. eauto.
Qed.

(** X19.  In a maze of height 1 the outcome does not depend on the
    random orders: after a successful [populateFrom] every wall
    between two neighbouring cells is broken, the last cell keeps its
    right wall and every cell its wall below. *)
Theorem one_row_maze_forced (w px : Z) (g : Rng) (depth : nat) (st' : State) (qx : Z) :
  0 <= px < w →
  populateFrom depth px 0 (Maze_init w 1, g) = (Ok true, st') →
  (0 <= qx → qx + 1 < w → hasWallRight (fst st') (Stored qx 0) = Ok false) ∧
  hasWallRight (fst st') (Stored (w - 1) 0) = Ok true ∧
  (0 <= qx < w → hasWallBelow (fst st') (Stored qx 0) = Ok true).
Proof.
  intros Hx Hok.
  assert (Hin : in_bounds (Maze_init w 1) px 0) by (unfold in_bounds; simpl; lia).
  destruct (populateFrom_fills w 1 px 0 g depth st' Hin Hok)
    as (_ & Hwf & Hw & Hh & Hfull & (Hcon & _ & _)).
  set (m := fst st') in *.
  assert (Hpop : ∀ ax, 0 <= ax < w → populated m (ax, 0)).
  { intros ax ?. apply Hfull. unfold in_bounds. rewrite Hw, Hh. simpl. lia. }
  split_and!.
  - intros H0 H1.
    destruct (rtc_crossing (passage m) (λ p, p.1 <= qx) (qx, 0) (qx + 1, 0))
      as ([c1 c2] & [d1 d2] & Hp & Hc & Hd); simpl; [|lia|lia|].
    { apply Hcon; apply Hpop; lia. }
    destruct (passage_populated m _ _ Hwf Hp) as [[c Hcell] _].
    destruct (wf_in _ Hwf _ _ _ Hcell) as [_ Hc2]. rewrite Hh in Hc2.
    simpl in *. unfold passage in Hp. simpl in Hp.
    destruct Hp as [[Ho Heq]|[[Ho Heq]|[[Ho Heq]|[Ho Heq]]]]; simplify_eq; try lia.
    assert (c1 = qx) as -> by lia. assert (c2 = 0) as -> by lia. exact Ho.
  - destruct (Hpop (w - 1)) as [c Hc]; [lia|]. simpl in Hc.
    unfold hasWallRight. simpl. rewrite Hc. f_equal.
    destruct (wall_right c) eqn:Hwr; [done|].
    destruct (wf_right _ Hwf _ _ _ Hc Hwr) as [c' Hc'].
    destruct (wf_in _ Hwf _ _ _ Hc'). lia.
  - intros Hq. destruct (Hpop qx Hq) as [c Hc]. simpl in Hc.
    unfold hasWallBelow. simpl. rewrite Hc. f_equal.
    destruct (wall_below c) eqn:Hwb; [done|].
    destruct (wf_below _ Hwf _ _ _ Hc Hwb) as [c' Hc'].
    destruct (wf_in _ Hwf _ _ _ Hc'). lia.
Qed.

Lemma one_row_maze_forced_witness :
  let st' := snd (populateFrom 3 1 0 (Maze_init 3 1, rng0)) in
  0 <= 1 < 3 ∧
  populateFrom 3 1 0 (Maze_init 3 1, rng0) = (Ok true, st') ∧
  hasWallRight (fst st') (Stored 0 0) = Ok false.
Proof.
  assert (Hok : populateFrom 3 1 0 (Maze_init 3 1, rng0) =
                (Ok true, snd (populateFrom 3 1 0 (Maze_init 3 1, rng0))))
    by (vm_compute; reflexivity).
  split; [lia|]. split; [exact Hok|].
  exact (proj1 (one_row_maze_forced 3 1 rng0 3 _ 0 ltac:(lia) Hok)
           ltac:(lia) ltac:(lia)).
Defined.

(** X20.  In a generated maze of more than one cell no cell is walled
    in: each has lost its right wall or its wall below, or its left
    neighbour has lost its right wall, or its upper neighbour its wall
    below. *)
Theorem generated_maze_no_closed_cell
    (w h px py : Z) (g : Rng) (depth : nat) (st' : State) (qx qy : Z) :
  0 <= px < w → 0 <= py < h → 1 < w ∨ 1 < h →
  populateFrom depth px py (Maze_init w h, g) = (Ok true, st') →
  0 <= qx < w → 0 <= qy < h →
  hasWallRight (fst st') (Stored qx qy) = Ok false ∨
  hasWallBelow (fst st') (Stored qx qy) = Ok false ∨
  hasWallRight (fst st') (Stored (qx - 1) qy) = Ok false ∨
  hasWallBelow (fst st') (Stored qx (qy - 1)) = Ok false.
Proof.
  intros Hx Hy Hwh Hok Hqx Hqy.
  destruct (populateFrom_fills w h px py g depth st' (conj Hx Hy) Hok)
    as (_ & Hwf & Hw & Hh & Hfull & (Hcon & _ & _)).
  set (m := fst st') in *.
  assert (Hpop : ∀ ax ay, 0 <= ax < w → 0 <= ay < h → populated m (ax, ay)).
  { intros ax ay ? ?. apply Hfull. unfold in_bounds. by rewrite Hw, Hh. }
  assert (∃ q, q ≠ (qx, qy) ∧ populated m q) as (q & Hne & Hq).
  { destruct Hwh.
    - exists (if decide (qx = 0) then 1 else 0, qy). split.
      + case_decide; intros [= ]; lia.
      + apply Hpop; [case_decide; lia|done].
    - exists (qx, if decide (qy = 0) then 1 else 0). split.
      + case_decide; intros [= ]; lia.
      + apply Hpop; [done|case_decide; lia]. }
  pose proof (Hcon (qx, qy) q (Hpop qx qy Hqx Hqy) Hq) as Hpath.
  apply rtc_inv in Hpath as [Heq|([c1 c2] & Hp & _)]; [congruence|].
  unfold passage in Hp. simpl in Hp.
  destruct Hp as [[Ho Heq]|[[Ho Heq]|[[Ho Heq]|[Ho Heq]]]]; simplify_eq.
  - by left.
  - by right; left.
  - right; right; left. by replace (c1 + 1 - 1) with c1 by lia.
  - right; right; right. by replace (c2 + 1 - 1) with c2 by lia.
Qed.

Lemma generated_maze_no_closed_cell_witness :
  let st' := snd (populateFrom 6 1 0 (Maze_init 3 2, rng0)) in
  (0 <= 1 < 3 ∧ 0 <= 0 < 2 ∧ (1 < 3 ∨ 1 < 2)) ∧
  populateFrom 6 1 0 (Maze_init 3 2, rng0) = (Ok true, st') ∧
  (0 <= 2 < 3 ∧ 0 <= 1 < 2) ∧
  (hasWallRight (fst st') (Stored 2 1) = Ok false ∨
   hasWallBelow (fst st') (Stored 2 1) = Ok false ∨
   hasWallRight (fst st') (Stored (2 - 1) 1) = Ok false ∨
   hasWallBelow (fst st') (Stored 2 (1 - 1)) = Ok false).
Proof.
  assert (Hok : populateFrom 6 1 0 (Maze_init 3 2, rng0) =
                (Ok true, snd (populateFrom 6 1 0 (Maze_init 3 2, rng0))))
    by (vm_compute; reflexivity).
  split; [lia|]. split; [exact Hok|]. split; [lia|].
  exact (generated_maze_no_closed_cell 3 2 1 0 rng0 6 _ 2 1
           ltac:(lia) ltac:(lia) ltac:(lia) Hok ltac:(lia) ltac:(lia)).
Defined.
